(** * Better Export PDF: document transformation and preview pipeline

    A shallow embedding of [src/render.ts] and of the export modal
    ([ExportConfigModal]) together with the properties the specification
    states about them.

    Conventions.
    - JavaScript strings are [string]s; a line break is the character 10.
    - A JavaScript [Map] is an association list in insertion order, which is
      the order [Map.prototype.values] iterates in.
    - A DOM tree is an inductive [node]; a handle on an element is the path
      from the root of its tree.
    - Host capabilities (Markdown renderer, HTML parser, URI codec, path
      prompts, PDF generation) are parameters of the sections that use them. *)

From Stdlib Require Import List Bool Arith Lia String Ascii.
From Stdlib Require Import QArith Qround.
Import ListNotations.

Local Close Scope Q_scope.
Local Open Scope nat_scope.
Local Open Scope string_scope.
Local Open Scope list_scope.

(* ===================================================================== *)
(** ** JavaScript string primitives *)
(* ===================================================================== *)

Module JS.

(** [strip_prefix p s] is [Some r] when [s = p ++ r]. *)
Fixpoint strip_prefix (p s : string) : option string :=
  match p with
  | EmptyString => Some s
  | String a p' =>
      match s with
      | EmptyString => None
      | String b s' => if Ascii.eqb a b then strip_prefix p' s' else None
      end
  end.

(** [startsWith s p]: [String.prototype.startsWith]. *)
Definition startsWith (s p : string) : bool :=
  match strip_prefix p s with Some _ => true | None => false end.

(** [find_first p s] locates the leftmost occurrence of [p] in [s] and
    returns the text before it and the text after it. *)
Fixpoint find_first (p s : string) : option (string * string) :=
  match strip_prefix p s with
  | Some r => Some (EmptyString, r)
  | None =>
      match s with
      | EmptyString => None
      | String c s' =>
          match find_first p s' with
          | Some (b, a) => Some (String c b, a)
          | None => None
          end
      end
  end.

(** [includes s p]: [String.prototype.includes]. *)
Definition includes (s p : string) : bool :=
  match find_first p s with Some _ => true | None => false end.

(** The replacement-template expansion of [String.prototype.replace]
    (ECMAScript GetSubstitution) for a string pattern, which has no capture
    groups: [$$] is a dollar sign, [$&] the matched text, [$`] the text before
    the match, [$'] the text after it; every other character, including a
    dollar sign followed by a digit or by [<], stands for itself. *)
Fixpoint getSubstitution (matched before after template : string) : string :=
  match template with
  | EmptyString => EmptyString
  | String "$" (String "$" t) =>
      String "$" (getSubstitution matched before after t)
  | String "$" (String "&" t) =>
      matched ++ getSubstitution matched before after t
  | String "$" (String "`" t) =>
      before ++ getSubstitution matched before after t
  | String "$" (String "'" t) =>
      after ++ getSubstitution matched before after t
  | String c t => String c (getSubstitution matched before after t)
  end.

(** [replace s p r]: [s.replace(p, r)] with a string pattern [p]; only the
    first occurrence is replaced. *)
Definition replace (s p r : string) : string :=
  match find_first p s with
  | Some (b, a) => b ++ getSubstitution p b a r ++ a
  | None => s
  end.

(** [split_on c s]: [s.split(c)] for a one-character separator. The result
    is never empty. *)
Fixpoint split_on (c : ascii) (s : string) : list string :=
  match s with
  | EmptyString => [EmptyString]
  | String a s' =>
      if Ascii.eqb a c then EmptyString :: split_on c s'
      else match split_on c s' with
           | [] => [String a EmptyString]
           | h :: t => String a h :: t
           end
  end.

(** [join sep l]: [Array.prototype.join]. *)
Fixpoint join (sep : string) (l : list string) : string :=
  match l with
  | [] => EmptyString
  | [x] => x
  | x :: rest => x ++ sep ++ join sep rest
  end.


Definition newline : ascii := "010"%char.
Definition nl : string := String newline EmptyString.







End JS.

(* ===================================================================== *)
(** ** Block-anchor placement ([renderMarkdown], render.ts 193-211) *)
(* ===================================================================== *)

Module Anchors.

(** One entry of the host's block index: [{ id, position: { start, end } }]. *)
Record BlockCache := mkBlock {
  id : string;
  start_line : nat;
  end_line : nat
}.

(** [new Map(Object.entries(cache.blocks))]: the entries of the index, keyed
    by the property name, in property order. *)
Definition BlockMap := list (string * BlockCache).

Definition blockid (b : BlockCache) : string := "^" ++ id b.

(** [blocks.delete(k)]. *)
Definition map_delete (k : string) (m : BlockMap) : BlockMap :=
  filter (fun e => negb (String.eqb (fst e) k)) m.

(** The double-quote character of the span markup. *)
Definition dq : string := String "034"%char EmptyString.

(** The template of line 202:
    [<span id="${blockid}" class="blockid"></span> ${blockid}]. *)
Definition inline_span (marker : string) : string :=
  "<span id=" ++ dq ++ marker ++ dq ++ " class=" ++ dq ++ "blockid" ++ dq
  ++ "></span> " ++ marker.

(** The text of line 210:
    [<span id="^${id}" class="blockid"></span>\n\n]. *)
Definition synthetic_span (i : string) : string :=
  "<span id=" ++ dq ++ "^" ++ i ++ dq ++ " class=" ++ dq ++ "blockid" ++ dq
  ++ "></span>" ++ JS.nl ++ JS.nl.

Arguments inline_span : simpl never.
Arguments synthetic_span : simpl never.

(** The guard of line 200 for one block and one line. *)
Definition matches (line : string) (i : nat) (b : BlockCache) : bool :=
  JS.includes line (blockid b) && (start_line b <=? i)%nat && (i <=? end_line b)%nat.

(** The [for ... of blocks.values()] loop of lines 195-204: the first block,
    in iteration order, whose guard holds on this line. *)
Fixpoint first_match (line : string) (i : nat) (m : BlockMap)
  : option BlockCache :=
  match m with
  | [] => None
  | (_, b) :: rest =>
      if matches line i b then Some b else first_match line i rest
  end.

(** The callback of [.map((line, i) => ...)]: the block map it mutates is
    threaded through. *)
Definition map_line (m : BlockMap) (line : string) (i : nat)
  : BlockMap * string :=
  match first_match line i m with
  | Some b =>
      (map_delete (id b) m,
       JS.replace line (blockid b) (inline_span (blockid b)))
  | None => (m, line)
  end.

(** [lines.map(callback)], from index [i] on. *)
Fixpoint map_lines (m : BlockMap) (i : nat) (ls : list string)
  : BlockMap * list string :=
  match ls with
  | [] => (m, [])
  | l :: rest =>
      let '(m1, l') := map_line m l i in
      let '(m2, rest') := map_lines m1 (S i) rest in
      (m2, l' :: rest')
  end.

(** A JavaScript array of strings; [None] is a hole left by an assignment
    past the end. *)
Definition JsArray := list (option string).

(** [lines[idx]] used as an operand of [+]: a missing element reads as
    [undefined], which concatenates as the text "undefined". *)
Definition array_read (a : JsArray) (idx : nat) : string :=
  match nth_error a idx with
  | Some (Some s) => s
  | _ => "undefined"
  end.

(** [lines[idx] = v]: in range it overwrites, past the end it extends the
    array with holes. *)
Fixpoint array_write (a : JsArray) (idx : nat) (v : string) : JsArray :=
  match idx, a with
  | O, [] => [Some v]
  | O, _ :: t => Some v :: t
  | S n, [] => None :: array_write [] n v
  | S n, h :: t => h :: array_write t n v
  end.

(** One step of the [forEach] of lines 208-211. *)
Definition place_synthetic (a : JsArray) (b : BlockCache) : JsArray :=
  array_write a (start_line b)
    (synthetic_span (id b) ++ array_read a (start_line b)).

(** [data?.split("\n") ?? []]. *)
Definition split_lines (data : option string) : list string :=
  match data with
  | Some d => JS.split_on JS.newline d
  | None => []
  end.

(** Lines 193-211 as a whole: the blocks left after the scan and the final
    [lines] array. *)
Definition scan (blocks : BlockMap) (data : option string)
  : BlockMap * list string :=
  map_lines blocks 0 (split_lines data).

Definition place_anchors (blocks : BlockMap) (data : option string)
  : JsArray :=
  let '(remaining, lines) := scan blocks data in
  fold_left place_synthetic (map snd remaining) (map Some lines).

(** [lines.join("\n")], the text handed to the Markdown renderer: holes
    join as the empty string. *)
Definition joined (a : JsArray) : string :=
  JS.join JS.nl (map (fun o => match o with Some s => s | None => "" end) a).

(** *** Placement log

    Which block the scan consumed on which line, and which block received a
    synthetic span at which index, read off the same control flow as
    [map_lines] and [place_anchors]. *)
Inductive Placement :=
| Inline (line : nat) (b : BlockCache)
| Synthetic (line : nat) (b : BlockCache).

Fixpoint inline_log (m : BlockMap) (i : nat) (ls : list string)
  : list (nat * BlockCache) :=
  match ls with
  | [] => []
  | l :: rest =>
      match first_match l i m with
      | Some b => (i, b) :: inline_log (map_delete (id b) m) (S i) rest
      | None => inline_log m (S i) rest
      end
  end.

Definition placements (blocks : BlockMap) (data : option string)
  : list Placement :=
  map (fun p => Inline (fst p) (snd p))
      (inline_log blocks 0 (split_lines data))
  ++ map (fun e => Synthetic (start_line (snd e)) (snd e))
         (fst (scan blocks data)).


(** [Object.entries] lists each property once, and the host files each
    block under its own id. *)
Definition keyed_by_id (m : BlockMap) : Prop :=
  Forall (fun e => fst e = id (snd e)) m.

Definition wf_index (m : BlockMap) : Prop :=
  NoDup (map fst m) /\ keyed_by_id m.


(** The spans prepended to line [idx] by the synthetic pass, for the blocks
    of [bs] taken in order. *)
Definition prepend_at (idx : nat) (acc : string) (b : BlockCache) : string :=
  if Nat.eqb (start_line b) idx then synthetic_span (id b) ++ acc else acc.

(** All that the synthetic pass puts in front of line [idx]: the spans of
    the blocks of [bs] that start there, the last one first. *)
Definition synthetic_prefix (idx : nat) (bs : list BlockCache) : string :=
  fold_left (prepend_at idx) bs "".

(** *** Strings *)

Lemma append_assoc (a b c : string) : ((a ++ b) ++ c = a ++ (b ++ c))%string.
Proof. induction a as [|x a IH]; simpl; [reflexivity | now rewrite IH]. Qed.

Lemma append_nil_r (a : string) : (a ++ "" = a)%string.
Proof. induction a as [|x a IH]; simpl; [reflexivity | now rewrite IH]. Qed.

(** *** The block map *)

Lemma first_match_Some line i m b :
  first_match line i m = Some b ->
  (exists k, In (k, b) m) /\ matches line i b = true.
Proof.
  induction m as [|[k c] m IH]; simpl; [discriminate|].
  destruct (matches line i c) eqn:E.
  - intros [= <-]. split; [exists k; now left | exact E].
  - intros H. destruct (IH H) as [[k' Hin] Hm].
    split; [exists k'; now right | exact Hm].
Qed.

Lemma first_match_None line i m :
  first_match line i m = None ->
  forall k b, In (k, b) m -> matches line i b = false.
Proof.
  induction m as [|[k c] m IH]; simpl; [now intros|].
  destruct (matches line i c) eqn:E; [discriminate|].
  intros H k' b [[= <- <-]|Hin]; [exact E | eapply IH; eauto].
Qed.

Lemma map_delete_In k m e :
  In e (map_delete k m) <-> In e m /\ fst e <> k.
Proof.
  unfold map_delete. rewrite filter_In, negb_true_iff, String.eqb_neq.
  reflexivity.
Qed.

Lemma keyed_map_delete k m : keyed_by_id m -> keyed_by_id (map_delete k m).
Proof.
  unfold keyed_by_id. rewrite !Forall_forall. intros H e He.
  apply map_delete_In in He. now apply H.
Qed.

Lemma NoDup_map_delete k m :
  NoDup (map fst m) -> NoDup (map fst (map_delete k m)).
Proof.
  induction m as [|e m IH]; simpl; intros H; [constructor|].
  inversion H as [|? ? Hnin Hnd]; subst.
  destruct (negb (fst e =? k)%string); simpl; [|now apply IH].
  constructor; [|now apply IH].
  intros Hin. apply Hnin. apply in_map_iff in Hin.
  destruct Hin as [e' [He' Hin]]. apply map_delete_In in Hin.
  apply in_map_iff. exists e'. tauto.
Qed.

Lemma wf_map_delete k m : wf_index m -> wf_index (map_delete k m).
Proof.
  intros [H1 H2]. split; [now apply NoDup_map_delete | now apply keyed_map_delete].
Qed.






(** *** The scan *)

Lemma map_lines_cons m i l rest :
  map_lines m i (l :: rest)
  = (fst (map_lines (fst (map_line m l i)) (S i) rest),
     snd (map_line m l i) :: snd (map_lines (fst (map_line m l i)) (S i) rest)).
Proof.
  cbn [map_lines]. destruct (map_line m l i) as [m1 l']. cbn [fst snd].
  now destruct (map_lines m1 (S i) rest) as [m2 rest'].
Qed.

Lemma map_lines_length m i ls :
  List.length (snd (map_lines m i ls)) = List.length ls.
Proof.
  revert m i. induction ls as [|l rest IH]; intros m i; [reflexivity|].
  rewrite map_lines_cons. simpl. now rewrite IH.
Qed.

Lemma remaining_subset m i ls e :
  In e (fst (map_lines m i ls)) -> In e m.
Proof.
  revert m i. induction ls as [|l rest IH]; intros m i; [now simpl|].
  rewrite map_lines_cons. simpl. intros H. apply IH in H.
  unfold map_line in H. destruct (first_match l i m); simpl in H; [|exact H].
  now apply map_delete_In in H.
Qed.


(** A logged line lies in the scanned range, satisfies the guard of line
    200 for its block and is the line the scan rewrote. *)
Lemma inline_log_sound m i ls j b :
  In (j, b) (inline_log m i ls) ->
  i <= j /\ (exists k, In (k, b) m) /\
  exists line,
    nth_error ls (j - i) = Some line /\ matches line j b = true /\
    nth_error (snd (map_lines m i ls)) (j - i)
    = Some (JS.replace line (blockid b) (inline_span (blockid b))).
Proof.
  revert m i. induction ls as [|l rest IH]; intros m i; [now simpl|].
  rewrite map_lines_cons. simpl inline_log. unfold map_line.
  destruct (first_match l i m) as [c|] eqn:E; simpl fst; simpl snd.
  - intros [[= <- <-]|Hin].
    + destruct (first_match_Some _ _ _ _ E) as [Hk Hm].
      split; [lia|]. split; [exact Hk|]. exists l.
      rewrite Nat.sub_diag. simpl. auto.
    + destruct (IH _ _ Hin) as [Hle [[k Hk] [line [H1 [H2 H3]]]]].
      split; [lia|]. split.
      * exists k. now apply map_delete_In in Hk.
      * exists line. replace (j - i) with (S (j - S i)) by lia. simpl. auto.
  - intros Hin. destruct (IH _ _ Hin) as [Hle [Hk [line [H1 [H2 H3]]]]].
    split; [lia|]. split; [exact Hk|].
    exists line. replace (j - i) with (S (j - S i)) by lia. simpl. auto.
Qed.




(** *** The synthetic pass *)

Lemma array_write_same a i v : nth_error (array_write a i v) i = Some (Some v).
Proof.
  revert a. induction i as [|i IH]; intros [|h t]; simpl; auto.
Qed.

Lemma array_write_other a i j v o :
  i <> j -> nth_error a j = Some o -> nth_error (array_write a i v) j = Some o.
Proof.
  revert a j. induction i as [|i IH]; intros [|h t] [|j] Hne H;
    simpl in *; try discriminate; try congruence; auto.
Qed.

Lemma array_read_Some a i s :
  nth_error a i = Some (Some s) -> array_read a i = s.
Proof. unfold array_read. now intros ->. Qed.

(** The synthetic pass leaves on line [idx] the text the scan produced,
    with one span in front of it for each surviving block that starts there. *)
Lemma synthetic_fold bs a idx s :
  nth_error a idx = Some (Some s) ->
  nth_error (fold_left place_synthetic bs a) idx
  = Some (Some (fold_left (prepend_at idx) bs s)).
Proof.
  revert a s. induction bs as [|b bs IH]; intros a s H; [exact H|].
  simpl. apply IH. unfold place_synthetic, prepend_at.
  destruct (Nat.eqb_spec (start_line b) idx) as [->|Hne].
  - rewrite (array_read_Some _ _ _ H). apply array_write_same.
  - now apply array_write_other.
Qed.



Lemma prepend_at_none idx bs s :
  (forall b, In b bs -> start_line b <> idx) ->
  fold_left (prepend_at idx) bs s = s.
Proof.
  revert s. induction bs as [|b bs IH]; intros s H; [reflexivity|].
  cbn [fold_left]. unfold prepend_at at 2.
  destruct (Nat.eqb_spec (start_line b) idx) as [E|_].
  - exfalso. apply (H b); [now left | exact E].
  - apply IH. intros c Hc. apply H. now right.
Qed.

Lemma prepend_at_split idx bs s :
  fold_left (prepend_at idx) bs s = (synthetic_prefix idx bs ++ s)%string.
Proof.
  unfold synthetic_prefix. revert s.
  induction bs as [|b bs IH]; intros s; [reflexivity|].
  cbn [fold_left]. rewrite (IH (prepend_at idx s b)), (IH (prepend_at idx "" b)).
  unfold prepend_at. destruct (Nat.eqb (start_line b) idx);
    rewrite append_assoc; [now rewrite append_nil_r | reflexivity].
Qed.

(** The final array on a line of the document: what the scan left there,
    behind the synthetic spans of the blocks that start there. *)
Lemma output_line blocks data i s :
  nth_error (snd (scan blocks data)) i = Some s ->
  nth_error (place_anchors blocks data) i
  = Some (Some (synthetic_prefix i (map snd (fst (scan blocks data))) ++ s)%string).
Proof.
  intros Hs. unfold place_anchors.
  destruct (scan blocks data) as [remaining lines]. cbn [fst snd] in *.
  assert (Ha : nth_error (map Some lines) i = Some (Some s))
    by (rewrite nth_error_map, Hs; reflexivity).
  now rewrite (synthetic_fold _ _ _ _ Ha), prepend_at_split.
Qed.


(** A logged line reaches the final array rewritten. *)
Lemma inline_log_output blocks data i b :
  In (i, b) (inline_log blocks 0 (split_lines data)) ->
  exists line,
    nth_error (split_lines data) i = Some line /\ matches line i b = true /\
    nth_error (place_anchors blocks data) i
    = Some (Some (synthetic_prefix i (map snd (fst (scan blocks data)))
                  ++ JS.replace line (blockid b) (inline_span (blockid b)))%string).
Proof.
  intros Hi.
  destruct (inline_log_sound _ _ _ _ _ Hi) as [_ [_ [line [H1 [H2 H3]]]]].
  rewrite Nat.sub_0_r in *. exists line. split; [exact H1|].
  split; [exact H2|]. now apply output_line.
Qed.

(** *** Membership in the placement log *)




(** *** The placement theorem *)





(** The hypothesis on keys matters: [blocks.delete(id)] removes nothing
    when the index files a block under a key other than its id, and the
    block is then placed inline and as a synthetic span. *)
Example key_other_than_id_places_twice :
  placements [("myid", mkBlock "MyId" 0 0)] (Some "x ^MyId")
  = [Inline 0 (mkBlock "MyId" 0 0); Synthetic 0 (mkBlock "MyId" 0 0)].
Proof. reflexivity. Qed.

(** *** Further properties of the scan and of the synthetic pass *)

Lemma split_on_cons c s : exists h t, JS.split_on c s = h :: t.
Proof.
  induction s as [|a s [h [t IH]]]; simpl; [eauto|].
  destruct (Ascii.eqb a c); [eauto|]. rewrite IH. eauto.
Qed.

Lemma join_cons sep x y l :
  JS.join sep (x :: y :: l) = (x ++ sep ++ JS.join sep (y :: l))%string.
Proof. reflexivity. Qed.

(** Splitting a text at line breaks and joining the lines again gives the
    text back. *)
Lemma join_split_lines s : JS.join JS.nl (JS.split_on JS.newline s) = s.
Proof.
  induction s as [|a s IH]; [reflexivity|]. simpl JS.split_on.
  destruct (split_on_cons JS.newline s) as [h [t E]]. rewrite E in *.
  destruct (Ascii.eqb_spec a JS.newline) as [->|_].
  - rewrite join_cons, IH. reflexivity.
  - destruct t as [|x t].
    + cbn [JS.join] in *. now rewrite IH.
    + rewrite join_cons in *. cbn [append]. now rewrite IH.
Qed.

Lemma map_lines_nil i ls : map_lines [] i ls = ([], ls).
Proof.
  revert i. induction ls as [|l rest IH]; intros i; [reflexivity|].
  rewrite map_lines_cons. unfold map_line. simpl. now rewrite IH.
Qed.

(** X1. With an empty block index the text handed to the Markdown renderer
    is the source text, unchanged. *)
Theorem empty_index_keeps_text d :
  joined (place_anchors [] (Some d)) = d.
Proof.
  unfold place_anchors, scan. rewrite map_lines_nil. cbn [map fold_left].
  unfold joined. rewrite map_map. cbn beta iota.
  rewrite map_id. apply join_split_lines.
Qed.

Lemma first_match_unmatched line i (m : BlockMap) :
  (forall k b, In (k, b) m -> matches line i b = false) ->
  first_match line i m = None.
Proof.
  induction m as [|[k c] m IH]; intros H; [reflexivity|]. simpl.
  rewrite (H k c (or_introl eq_refl)). apply IH.
  intros k' b Hin. apply (H k' b). now right.
Qed.

Lemma scan_unmatched m i ls j line :
  nth_error ls j = Some line ->
  (forall k b, In (k, b) m -> matches line (i + j) b = false) ->
  nth_error (snd (map_lines m i ls)) j = Some line.
Proof.
  revert m i j. induction ls as [|l rest IH]; intros m i j Hnth Hno.
  - now destruct j.
  - rewrite map_lines_cons. cbn [snd]. destruct j as [|j]; simpl in *.
    + injection Hnth as ->. rewrite Nat.add_0_r in Hno.
      unfold map_line. now rewrite (first_match_unmatched _ _ _ Hno).
    + apply IH; [exact Hnth|]. intros k b Hin.
      replace (S i + j) with (i + S j) by lia. apply (Hno k b).
      unfold map_line in Hin.
      destruct (first_match l i m); cbn [fst] in Hin; [|exact Hin].
      now apply map_delete_In in Hin.
Qed.

(** X2. A line that matches no anchor of the index (it lies outside the
    range or lacks the marker) and at which no anchor starts reaches the
    renderer as it was written. *)
Theorem untouched_line_is_kept blocks data j line :
  nth_error (split_lines data) j = Some line ->
  (forall k b, In (k, b) blocks ->
               matches line j b = false /\ start_line b <> j) ->
  nth_error (place_anchors blocks data) j = Some (Some line).
Proof.
  intros Hnth Hno. unfold place_anchors.
  destruct (scan blocks data) as [remaining lines] eqn:E.
  assert (Hl : nth_error lines j = Some line).
  { change lines with (snd (remaining, lines)). rewrite <- E. unfold scan.
    apply (scan_unmatched blocks 0); [exact Hnth|].
    intros k b Hin. exact (proj1 (Hno k b Hin)). }
  assert (Ha : nth_error (map Some lines) j = Some (Some line))
    by (rewrite nth_error_map, Hl; reflexivity).
  rewrite (synthetic_fold _ _ _ _ Ha). do 2 f_equal.
  apply prepend_at_none. intros b Hb. apply in_map_iff in Hb.
  destruct Hb as [[k c] [<- Hin]]. cbn [snd].
  assert (Hin' : In (k, c) blocks).
  { apply (remaining_subset blocks 0 (split_lines data)).
    unfold scan in E. now rewrite E. }
  exact (proj2 (Hno k c Hin')).
Qed.

(** The theorem at the first line of a note whose anchor is on the second. *)
Lemma untouched_line_is_kept_witness :
  nth_error
    (place_anchors [("k", mkBlock "k" 1 1)]
       (Some ("intro" ++ JS.nl ++ "text ^k")%string)) 0
  = Some (Some "intro").
Proof.
  apply (untouched_line_is_kept [("k", mkBlock "k" 1 1)]
           (Some ("intro" ++ JS.nl ++ "text ^k")%string) 0 "intro" eq_refl).
  intros k b [[= <- <-]|[]]. split; [reflexivity | discriminate].
Defined.

Lemma array_write_length_in a i v :
  i < List.length a -> List.length (array_write a i v) = List.length a.
Proof.
  revert a. induction i as [|i IH]; intros [|h t] H; simpl in *;
    try lia; auto. rewrite IH; lia.
Qed.

Lemma array_write_length_out a i v :
  List.length a <= i -> List.length (array_write a i v) = S i.
Proof.
  revert a. induction i as [|i IH]; intros [|h t] H; simpl in *;
    try lia; auto; rewrite IH; simpl; lia.
Qed.

Lemma synthetic_fold_length bs a :
  (forall b, In b bs -> start_line b < List.length a) ->
  List.length (fold_left place_synthetic bs a) = List.length a.
Proof.
  revert a. induction bs as [|b bs IH]; intros a H; [reflexivity|].
  cbn [fold_left].
  assert (Hb : List.length (place_synthetic a b) = List.length a).
  { unfold place_synthetic. apply array_write_length_in. apply H. now left. }
  rewrite IH; [exact Hb|]. intros c Hc. rewrite Hb. apply H. now right.
Qed.

(** X3. When every anchor of the index starts on a line of the document,
    anchor placement keeps the number of lines, so the line numbers of the
    index stay valid throughout. *)
Theorem placement_keeps_line_count blocks data :
  (forall k b, In (k, b) blocks ->
               start_line b < List.length (split_lines data)) ->
  List.length (place_anchors blocks data) = List.length (split_lines data).
Proof.
  intros H. unfold place_anchors.
  destruct (scan blocks data) as [remaining lines] eqn:E.
  assert (Hlen : List.length lines = List.length (split_lines data)).
  { change lines with (snd (remaining, lines)). rewrite <- E.
    apply map_lines_length. }
  rewrite synthetic_fold_length; rewrite length_map; [exact Hlen|].
  intros b Hb. apply in_map_iff in Hb. destruct Hb as [[k c] [<- Hin]].
  rewrite Hlen. apply (H k c).
  apply (remaining_subset blocks 0 (split_lines data)).
  unfold scan in E. now rewrite E.
Qed.

(** The theorem at a two-line note with an anchor that has no marker. *)
Lemma placement_keeps_line_count_witness :
  List.length
    (place_anchors [("k", mkBlock "k" 1 1)]
       (Some ("intro" ++ JS.nl ++ "text")%string)) = 2.
Proof.
  apply (placement_keeps_line_count [("k", mkBlock "k" 1 1)]
           (Some ("intro" ++ JS.nl ++ "text")%string)).
  intros k b [[= <- <-]|[]]. simpl. lia.
Defined.

(** X4. An anchor whose starting line lies past the end of the lines
    extends the array up to that index, and the new last entry is its span
    followed by the text "undefined"; the entries before keep their
    content. *)
Theorem synthetic_past_the_end a b :
  List.length a <= start_line b ->
  List.length (place_synthetic a b) = S (start_line b)
  /\ nth_error (place_synthetic a b) (start_line b)
     = Some (Some (synthetic_span (id b) ++ "undefined")%string)
  /\ (forall i o, nth_error a i = Some o ->
                  nth_error (place_synthetic a b) i = Some o).
Proof.
  intros H. unfold place_synthetic. split; [|split].
  - now apply array_write_length_out.
  - rewrite array_write_same. unfold array_read.
    assert (E : nth_error a (start_line b) = None)
      by now apply nth_error_None.
    now rewrite E.
  - intros i o Hi. apply array_write_other; [|exact Hi].
    assert (i < List.length a) by (apply nth_error_Some; congruence). lia.
Qed.

(** The theorem at a note without text whose index still lists an anchor. *)
Lemma synthetic_past_the_end_witness :
  nth_error (place_synthetic [] (mkBlock "k" 1 1)) 1
  = Some (Some (synthetic_span "k" ++ "undefined")%string).
Proof.
  exact (proj1 (proj2 (synthetic_past_the_end [] (mkBlock "k" 1 1)
                         (Nat.le_0_l _)))).
Defined.

Lemma NoDup_fst_inj (m : BlockMap) k b1 b2 :
  NoDup (map fst m) -> In (k, b1) m -> In (k, b2) m -> b1 = b2.
Proof.
  induction m as [|e m IH]; intros Hnd H1 H2; [destruct H1|].
  inversion Hnd as [|? ? Hnin Hnd']; subst.
  destruct H1 as [->|H1], H2 as [E|H2].
  - congruence.
  - exfalso. apply Hnin. apply in_map_iff. exists (k, b2). auto.
  - exfalso. apply Hnin. subst e. apply in_map_iff. exists (k, b1). auto.
  - now apply IH.
Qed.

Lemma wf_same_id m k1 b1 k2 b2 :
  wf_index m -> In (k1, b1) m -> In (k2, b2) m -> id b1 = id b2 -> b1 = b2.
Proof.
  intros [Hnd Hk] H1 H2 Hid. unfold keyed_by_id in Hk.
  rewrite Forall_forall in Hk.
  pose proof (Hk _ H1) as E1. pose proof (Hk _ H2) as E2. simpl in E1, E2.
  assert (E : k2 = k1) by congruence. rewrite E in H2.
  exact (NoDup_fst_inj m k1 b1 b2 Hnd H1 H2).
Qed.

(** A line on which the guard holds for a block of the map is consumed,
    either by that block, there or earlier, or there by another block. *)
Lemma candidate_consumed m i ls k b j line :
  wf_index m -> In (k, b) m ->
  nth_error ls j = Some line -> matches line (i + j) b = true ->
  exists i' c,
    In (i', c) (inline_log m i ls) /\ i' <= i + j /\
    (c = b \/ (i' = i + j /\ c <> b)).
Proof.
  revert m i j. induction ls as [|l rest IH]; intros m i j Hwf Hin Hnth Hm.
  - now destruct j.
  - simpl inline_log.
    destruct (first_match l i m) as [c|] eqn:E.
    + destruct (first_match_Some _ _ _ _ E) as [[kc Hc] _].
      destruct (String.eqb_spec (id c) (id b)) as [Hid|Hid].
      * exists i, c. split; [now left|]. split; [lia|]. left.
        exact (wf_same_id m kc c k b Hwf Hc Hin Hid).
      * destruct j as [|j]; simpl in Hnth.
        -- exists i, c. split; [now left|]. split; [lia|]. right.
           split; [lia | congruence].
        -- assert (Hin' : In (k, b) (map_delete (id c) m)).
           { apply map_delete_In. split; [exact Hin|]. simpl.
             destruct Hwf as [_ Hk]. unfold keyed_by_id in Hk.
             rewrite Forall_forall in Hk. specialize (Hk _ Hin). simpl in Hk.
             congruence. }
           replace (i + S j) with (S i + j) in * by lia.
           destruct (IH _ _ _ (wf_map_delete (id c) m Hwf) Hin' Hnth Hm)
             as [i' [c' [H1 [H2 H3]]]].
           exists i', c'. split; [now right | auto].
    + destruct j as [|j]; simpl in Hnth.
      * injection Hnth as ->. rewrite Nat.add_0_r in Hm.
        rewrite (first_match_None _ _ _ E k b Hin) in Hm. discriminate.
      * replace (i + S j) with (S i + j) in * by lia.
        exact (IH _ _ _ Hwf Hin Hnth Hm).
Qed.

(** X5. In an index that lists every anchor once under its own id, an
    anchor that is the only one whose guard holds on some line gets its
    inline span in the array handed to the renderer: on that line or on an
    earlier line of its range that holds its marker, the final array has the
    line with the marker replaced by the span, behind the synthetic spans of
    the anchors that start there. *)
Theorem sole_candidate_is_inline blocks data k b j line :
  wf_index blocks -> In (k, b) blocks ->
  nth_error (split_lines data) j = Some line -> matches line j b = true ->
  (forall k' b', In (k', b') blocks -> matches line j b' = true -> b' = b) ->
  exists i l,
    i <= j /\ nth_error (split_lines data) i = Some l /\
    matches l i b = true /\
    nth_error (place_anchors blocks data) i
    = Some (Some (synthetic_prefix i (map snd (fst (scan blocks data)))
                  ++ JS.replace l (blockid b) (inline_span (blockid b)))%string).
Proof.
  intros Hwf Hin Hnth Hm Hsole.
  destruct (candidate_consumed blocks 0 _ k b j line Hwf Hin Hnth Hm)
    as [i [c [Hlog [Hle [->|[-> Hne]]]]]].
  - destruct (inline_log_output _ _ _ _ Hlog) as [l [H1 [H2 H3]]].
    exists i, l. auto.
  - exfalso. apply Hne.
    destruct (inline_log_sound _ _ _ _ _ Hlog)
      as [_ [[kc Hc] [line' [H1 [H2 _]]]]].
    simpl in H1. rewrite Nat.sub_0_r in H1.
    assert (line' = line) by congruence. subst line'.
    exact (Hsole kc c Hc H2).
Qed.

(** The theorem at a note with two anchors on separate lines. *)
Lemma sole_candidate_is_inline_witness :
  exists i l,
    i <= 1 /\
    nth_error
      (split_lines (Some ("one ^a" ++ JS.nl ++ "two ^b")%string)) i = Some l /\
    matches l i (mkBlock "b" 1 1) = true /\
    nth_error
      (place_anchors [("a", mkBlock "a" 0 0); ("b", mkBlock "b" 1 1)]
         (Some ("one ^a" ++ JS.nl ++ "two ^b")%string)) i
    = Some (Some
              (synthetic_prefix i
                 (map snd
                    (fst (scan [("a", mkBlock "a" 0 0); ("b", mkBlock "b" 1 1)]
                            (Some ("one ^a" ++ JS.nl ++ "two ^b")%string))))
               ++ JS.replace l "^b" (inline_span "^b"))%string).
Proof.
  apply (sole_candidate_is_inline
           [("a", mkBlock "a" 0 0); ("b", mkBlock "b" 1 1)]
           (Some ("one ^a" ++ JS.nl ++ "two ^b")%string)
           "b" (mkBlock "b" 1 1) 1 "two ^b").
  - split.
    + repeat constructor; simpl; intuition discriminate.
    + repeat constructor.
  - right. now left.
  - reflexivity.
  - reflexivity.
  - intros k' b' [E|[E|[]]] Hm; injection E as <- <-;
      [discriminate Hm | reflexivity].
Defined.

End Anchors.

(* ===================================================================== *)
(** ** DOM trees *)
(* ===================================================================== *)

Module Dom.

(** An element with its local name, its class list, its other attributes
    and its child nodes, or a text node. *)
#[warnings="-register-all"]
Inductive node :=
| Element (tag : string) (classes : list string)
          (attrs : list (string * string)) (childNodes : list node)
| Text (data : string).

(** A handle on a node: the child indices leading to it from the root. *)
Abbreviation path := (list nat) (only parsing).

Definition is_element (n : node) : bool :=
  match n with Element _ _ _ _ => true | Text _ => false end.

(** [node.childNodes]. *)
Definition childNodes (n : node) : list node :=
  match n with Element _ _ _ k => k | Text _ => [] end.

(** [element.children]: the child nodes that are elements. *)
Definition children (n : node) : list node :=
  filter is_element (childNodes n).

(** [element.classList.contains(c)]. *)
Definition has_class (c : string) (n : node) : bool :=
  match n with
  | Element _ cls _ _ => existsb (String.eqb c) cls
  | Text _ => false
  end.

Definition has_tag (t : string) (n : node) : bool :=
  match n with Element t' _ _ _ => String.eqb t t' | Text _ => false end.

(** Replacing the child nodes of an element. *)
Definition set_childNodes (kids : list node) (n : node) : node :=
  match n with
  | Element t c a _ => Element t c a kids
  | Text d => Text d
  end.

Section ListOps.
Context {A : Type}.

Fixpoint update_nth (i : nat) (f : A -> A) (l : list A) : list A :=
  match i, l with
  | _, [] => []
  | O, x :: t => f x :: t
  | S j, x :: t => x :: update_nth j f t
  end.

Fixpoint remove_nth (i : nat) (l : list A) : list A :=
  match i, l with
  | _, [] => []
  | O, _ :: t => t
  | S j, x :: t => x :: remove_nth j t
  end.

(** Insertion in front of the element at index [i]. *)
Fixpoint insert_nth (i : nat) (x : A) (l : list A) : list A :=
  match i, l with
  | O, _ => x :: l
  | S j, [] => [x]
  | S j, y :: t => y :: insert_nth j x t
  end.

Variable B : Type.
Variable f : A -> option B.

(** The first element, from index [i] on, on which [f] succeeds. *)
Fixpoint find_index (i : nat) (l : list A) : option (nat * B) :=
  match l with
  | [] => None
  | x :: t =>
      match f x with
      | Some b => Some (i, b)
      | None => find_index (S i) t
      end
  end.

(** [f] on every element in order, failing as soon as [f] fails. *)
Fixpoint traverse (l : list A) : option (list B) :=
  match l with
  | [] => Some []
  | x :: t =>
      match f x with
      | Some y =>
          match traverse t with
          | Some r => Some (y :: r)
          | None => None
          end
      | None => None
      end
  end.
End ListOps.

(** The node a handle points at. *)
Fixpoint get_at (p : path) (n : node) : option node :=
  match p with
  | [] => Some n
  | i :: p' =>
      match nth_error (childNodes n) i with
      | Some k => get_at p' k
      | None => None
      end
  end.

(** In-place mutation of the node a handle points at. *)
Fixpoint update_at (p : path) (f : node -> node) (n : node) : node :=
  match p with
  | [] => f n
  | i :: p' => set_childNodes (update_nth i (update_at p' f) (childNodes n)) n
  end.

(** [querySelector]: the first node in document order, the root included,
    that satisfies the selector. *)
Fixpoint querySelector (sel : node -> bool) (n : node) : option path :=
  if sel n then Some []
  else match n with
       | Element _ _ _ kids =>
           match find_index _ (querySelector sel) 0 kids with
           | Some (i, p) => Some (i :: p)
           | None => None
           end
       | Text _ => None
       end.

(** Induction on trees, with the hypothesis for every child. *)
Definition node_nested_ind (P : node -> Prop)
  (HText : forall d, P (Text d))
  (HElement : forall t c a kids, Forall P kids -> P (Element t c a kids))
  : forall n, P n :=
  fix IH (n : node) : P n :=
    match n with
    | Text d => HText d
    | Element t c a kids =>
        HElement t c a kids
          ((fix all (l : list node) : Forall P l :=
              match l with
              | [] => Forall_nil P
              | k :: r => Forall_cons k (IH k) (all r)
              end) kids)
    end.

(** *** Handles *)

Lemma set_childNodes_id n : set_childNodes (childNodes n) n = n.
Proof. now destruct n. Qed.

Lemma childNodes_set kids n :
  is_element n = true -> childNodes (set_childNodes kids n) = kids.
Proof. now destruct n. Qed.

Lemma nth_error_update_nth {A} i (f : A -> A) l x :
  nth_error l i = Some x -> nth_error (update_nth i f l) i = Some (f x).
Proof.
  revert l. induction i as [|i IH]; intros [|y t] H; simpl in *;
    try discriminate; [congruence | now apply IH].
Qed.

Lemma update_nth_same {A} i (f : A -> A) l x :
  nth_error l i = Some x -> f x = x -> update_nth i f l = l.
Proof.
  revert l. induction i as [|i IH]; intros [|y t] H Hf; simpl in *;
    try discriminate; [congruence | now rewrite (IH t)].
Qed.

Lemma update_nth_twice {A} i (f g : A -> A) l :
  update_nth i g (update_nth i f l) = update_nth i (fun x => g (f x)) l.
Proof.
  revert l. induction i as [|i IH]; intros [|y t]; simpl; auto.
  now rewrite IH.
Qed.

Lemma update_nth_ext {A} i (f g : A -> A) l :
  (forall x, nth_error l i = Some x -> f x = g x) ->
  update_nth i f l = update_nth i g l.
Proof.
  revert l. induction i as [|i IH]; intros [|y t] H; simpl in *; auto.
  - now rewrite H.
  - now rewrite (IH t).
Qed.

Lemma nth_error_is_element n i k :
  nth_error (childNodes n) i = Some k -> is_element n = true.
Proof. destruct n; [reflexivity | now destruct i]. Qed.

Lemma get_update_at p f n m :
  get_at p n = Some m -> get_at p (update_at p f n) = Some (f m).
Proof.
  revert n. induction p as [|i p IH]; intros n H; simpl in *; [congruence|].
  destruct (nth_error (childNodes n) i) as [k|] eqn:E; [|discriminate].
  rewrite childNodes_set by (eapply nth_error_is_element; eauto).
  rewrite (nth_error_update_nth _ _ _ _ E). now apply IH.
Qed.

Lemma update_at_same p f n m :
  get_at p n = Some m -> f m = m -> update_at p f n = n.
Proof.
  revert n. induction p as [|i p IH]; intros n H Hf; simpl in *; [congruence|].
  destruct (nth_error (childNodes n) i) as [k|] eqn:E; [|discriminate].
  rewrite (update_nth_same _ _ _ _ E (IH _ H Hf)). apply set_childNodes_id.
Qed.

Lemma update_at_twice p f g n m :
  get_at p n = Some m ->
  update_at p g (update_at p f n) = update_at p (fun x => g (f x)) n.
Proof.
  revert n. induction p as [|i p IH]; intros n H; simpl in *; [reflexivity|].
  destruct (nth_error (childNodes n) i) as [k|] eqn:E; [|discriminate].
  pose proof (nth_error_is_element _ _ _ E) as He.
  rewrite childNodes_set by exact He. rewrite update_nth_twice.
  destruct n as [t c a kids|]; [|discriminate]. simpl. f_equal.
  apply update_nth_ext. intros x Hx. simpl in E.
  assert (x = k) by congruence. subst x. now apply IH.
Qed.

(** *** Selectors *)

Lemma find_index_Some {A B} (f : A -> option B) s l i b :
  find_index B f s l = Some (i, b) ->
  exists j x,
    i = s + j /\ nth_error l j = Some x /\ f x = Some b /\
    forall j' y, j' < j -> nth_error l j' = Some y -> f y = None.
Proof.
  revert s. induction l as [|x t IH]; intros s; simpl; [discriminate|].
  destruct (f x) as [b'|] eqn:E.
  - intros [= <- <-]. exists 0, x. rewrite Nat.add_0_r.
    repeat split; auto. intros j' y Hlt. lia.
  - intros H. destruct (IH _ H) as [j [z [Hi [Hn [Hf Hbefore]]]]].
    exists (S j), z. repeat split; auto; [lia|].
    intros [|j'] y Hlt Hy; simpl in Hy; [congruence|].
    apply (Hbefore j' y); [lia | exact Hy].
Qed.

Lemma find_index_intro {A B} (f : A -> option B) s l j x b :
  nth_error l j = Some x -> f x = Some b ->
  (forall j' y, j' < j -> nth_error l j' = Some y -> f y = None) ->
  find_index B f s l = Some (s + j, b).
Proof.
  revert s j. induction l as [|z t IH]; intros s [|j] Hn Hf Hb;
    simpl in *; try discriminate.
  - injection Hn as ->. now rewrite Hf, Nat.add_0_r.
  - rewrite (Hb 0 z); [|lia|reflexivity].
    rewrite (IH (S s) j Hn Hf).
    + f_equal. f_equal. lia.
    + intros j' y Hlt Hy. apply (Hb (S j') y); [lia | exact Hy].
Qed.

(** The handle [querySelector] returns points at a node that satisfies the
    selector. *)
Lemma querySelector_get sel p n :
  querySelector sel n = Some p ->
  exists m, get_at p n = Some m /\ sel m = true.
Proof.
  revert n. induction p as [|i p IH]; intros n H.
  - exists n. split; [reflexivity|].
    destruct n as [t c a kids|d]; simpl in H.
    + destruct (sel (Element t c a kids)); [reflexivity|].
      now destruct (find_index path (querySelector sel) 0 kids) as [[? ?]|].
    + now destruct (sel (Text d)).
  - destruct n as [t c a kids|d]; simpl in H.
    + destruct (sel (Element t c a kids)); [discriminate|].
      destruct (find_index path (querySelector sel) 0 kids) as [[i' p']|] eqn:E;
        [|discriminate].
      injection H as -> ->.
      destruct (find_index_Some _ _ _ _ _ E) as [j [x [Hi [Hn [Hq _]]]]].
      simpl in Hi. subst j. simpl. rewrite Hn. now apply IH.
    + now destruct (sel (Text d)).
Qed.

(** Replacing the children of the selected node does not change which node
    a selector on tag, classes and attributes selects. *)
Lemma querySelector_update sel p n ks :
  (forall m l, sel (set_childNodes l m) = sel m) ->
  querySelector sel n = Some p ->
  querySelector sel (update_at p (set_childNodes ks) n) = Some p.
Proof.
  intros Hsel. revert n. induction p as [|i p IH]; intros n H.
  - destruct (querySelector_get _ _ _ H) as [m [[= <-] Hm]].
    simpl update_at.
    destruct n as [t c a kids|d]; simpl.
    + change (Element t c a ks) with (set_childNodes ks (Element t c a kids)).
      now rewrite Hsel, Hm.
    + now rewrite Hm.
  - destruct n as [t c a kids|d]; simpl in H.
    + destruct (sel (Element t c a kids)) eqn:Es; [discriminate|].
      destruct (find_index path (querySelector sel) 0 kids) as [[i' p']|] eqn:E;
        [|discriminate].
      injection H as -> ->.
      destruct (find_index_Some _ _ _ _ _ E) as [j [x [Hi [Hn [Hq Hb]]]]].
      simpl in Hi. subst j. simpl.
      change (Element t c a (update_nth i (update_at p (set_childNodes ks)) kids))
        with (set_childNodes
                (update_nth i (update_at p (set_childNodes ks)) kids)
                (Element t c a kids)) at 1.
      rewrite Hsel, Es.
      rewrite (find_index_intro _ 0 _ i
                 (update_at p (set_childNodes ks) x) p).
      * reflexivity.
      * now apply nth_error_update_nth.
      * now apply IH.
      * intros j' y Hlt Hy. apply (Hb j' y Hlt).
        rewrite <- Hy. clear -Hlt. revert kids j' Hlt.
        induction i as [|i IHi]; intros [|z t] [|j'] Hlt; simpl;
          try lia; auto. apply IHi. lia.
    + now destruct (sel (Text d)).
Qed.

End Dom.

(* ===================================================================== *)
(** ** Click-to-toggle page break ([createWebview], render.ts 341-357) *)
(* ===================================================================== *)

Module PageBreak.
Import Dom.

Definition marker_class : string := "pagedjs_page_break".

(** [el.classList.contains('pagedjs_page_break')]. *)
Definition is_marker (n : node) : bool := has_class marker_class n.

(** [document.createElement('div')] with the marker class added. *)
Definition pageBreak : node := Element "div" [marker_class] [] [].

(** [clickedElement.previousElementSibling]: the nearest element among the
    siblings in front of index [i]; text nodes are skipped. *)
Fixpoint previousElementSibling (kids : list node) (i : nat) : option nat :=
  match i with
  | O => None
  | S j =>
      match nth_error kids j with
      | Some k =>
          if is_element k then Some j else previousElementSibling kids j
      | None => previousElementSibling kids j
      end
  end.

(** The handler on the child list of the clicked element's parent: the new
    child list and the new index of the clicked element. *)
Definition toggle (kids : list node) (i : nat) : list node * nat :=
  match previousElementSibling kids i with
  | Some j =>
      match nth_error kids j with
      | Some m =>
          if is_marker m then (remove_nth j kids, i - 1)
          else (insert_nth i pageBreak kids, S i)
      | None => (insert_nth i pageBreak kids, S i)
      end
  | None => (insert_nth i pageBreak kids, S i)
  end.

(** The click handler. The event target is the child [i] of the node at
    [parent]; targets are the body and its descendants, so there is always a
    parent. The result is the new tree and the new index of the target. *)
Definition click (root : node) (parent : path) (i : nat) : node * nat :=
  match get_at parent root with
  | Some par =>
      let '(kids, i') := toggle (childNodes par) i in
      (update_at parent (set_childNodes kids) root, i')
  | None => (root, i)
  end.

(** Two consecutive clicks on the same element. *)
Definition click_twice (root : node) (parent : path) (i : nat) : node * nat :=
  let '(root1, i1) := click root parent i in click root1 parent i1.

(** The clicked element is not preceded by a marker element. *)
Definition no_marker_before (kids : list node) (i : nat) : Prop :=
  match previousElementSibling kids i with
  | Some j =>
      match nth_error kids j with
      | Some m => is_marker m = false
      | None => True
      end
  | None => True
  end.

(** *** Sibling lists *)

Lemma nth_error_insert_nth {A} i (x : A) l :
  i <= List.length l -> nth_error (insert_nth i x l) i = Some x.
Proof.
  revert l. induction i as [|i IH]; intros [|y t] H; simpl in *;
    try lia; auto. apply IH. lia.
Qed.

Lemma nth_error_insert_after {A} i (x : A) l :
  nth_error (insert_nth i x l) (S i) = nth_error l i.
Proof.
  revert l. induction i as [|i IH]; intros [|y t]; simpl; auto.
  apply (IH t).
Qed.

Lemma remove_insert_nth {A} i (x : A) l :
  i <= List.length l -> remove_nth i (insert_nth i x l) = l.
Proof.
  revert l. induction i as [|i IH]; intros [|y t] H; simpl in *;
    try lia; auto. rewrite IH; [reflexivity | lia].
Qed.

Lemma toggle_inserts kids i :
  i <= List.length kids ->
  toggle (insert_nth i pageBreak kids) (S i) = (kids, i).
Proof.
  intros H. unfold toggle. simpl previousElementSibling.
  rewrite (nth_error_insert_nth _ _ _ H). simpl.
  rewrite (nth_error_insert_nth _ _ _ H). simpl.
  now rewrite (remove_insert_nth _ _ _ H), Nat.sub_0_r.
Qed.

Lemma nth_error_remove_before {A} j i (l : list A) :
  i < j -> nth_error (remove_nth j l) i = nth_error l i.
Proof.
  revert i l. induction j as [|j IH]; intros i [|x t] H; simpl;
    try lia; auto.
  destruct i as [|i]; [reflexivity|]. simpl. apply IH. lia.
Qed.

Lemma previousElementSibling_remove kids j i :
  i <= j ->
  previousElementSibling (remove_nth j kids) i = previousElementSibling kids i.
Proof.
  induction i as [|i IH]; intros H; [reflexivity|]. simpl.
  rewrite nth_error_remove_before by lia. rewrite IH by lia. reflexivity.
Qed.

Lemma previousElementSibling_lt kids i j :
  previousElementSibling kids i = Some j -> j < i.
Proof.
  induction i as [|i IH]; simpl; [discriminate|].
  destruct (nth_error kids i) as [k|].
  - destruct (is_element k); [intros [= <-]; lia|].
    intros H. specialize (IH H). lia.
  - intros H. specialize (IH H). lia.
Qed.

Lemma insert_remove_nth {A} j (x : A) l :
  nth_error l j = Some x -> insert_nth j x (remove_nth j l) = l.
Proof.
  revert l. induction j as [|j IH]; intros [|y t] H; simpl in *;
    try discriminate; [congruence|]. now rewrite IH.
Qed.

Lemma toggle_no_marker kids i :
  no_marker_before kids i -> toggle kids i = (insert_nth i pageBreak kids, S i).
Proof.
  unfold no_marker_before, toggle.
  destruct (previousElementSibling kids i) as [j|]; [|reflexivity].
  destruct (nth_error kids j) as [m|]; [|reflexivity]. now intros ->.
Qed.

(** C7 (amended). A click on an element toggles a page-break marker in
    front of it. If its preceding element sibling is a marker, the click
    removes that sibling. If it has no preceding element sibling, or one
    that is not a marker, the click inserts a marker immediately before the
    element, which stays in place behind it; a second click on the same
    element then removes that marker, and the two clicks together leave the
    DOM as it was. The same holds when the element stands directly behind
    a bare marker that no marker element precedes: the two clicks remove
    the marker and insert it again. *)
Theorem click_toggles root parent i par target :
  get_at parent root = Some par ->
  nth_error (childNodes par) i = Some target ->
  (forall j m,
      previousElementSibling (childNodes par) i = Some j ->
      nth_error (childNodes par) j = Some m -> is_marker m = true ->
      click root parent i
      = (update_at parent (set_childNodes (remove_nth j (childNodes par)))
           root, i - 1))
  /\ (no_marker_before (childNodes par) i ->
      (exists par1,
          get_at parent (fst (click root parent i)) = Some par1 /\
          snd (click root parent i) = S i /\
          nth_error (childNodes par1) i = Some pageBreak /\
          nth_error (childNodes par1) (S i) = Some target)
      /\ click_twice root parent i = (root, i))
  /\ (forall j,
        i = S j -> nth_error (childNodes par) j = Some pageBreak ->
        no_marker_before (childNodes par) j ->
        click_twice root parent i = (root, i)).
Proof.
  intros Hpar Htarget. split; [|split]; cycle 2.
  { intros j -> Hj Hprev.
    assert (Hel : is_element par = true)
      by (eapply nth_error_is_element; eauto).
    unfold click_twice, click. rewrite Hpar. unfold toggle at 1.
    simpl previousElementSibling. rewrite Hj. simpl is_element. cbv iota.
    rewrite Hj. simpl is_marker. cbv iota.
    rewrite (get_update_at _ _ _ _ Hpar), childNodes_set by exact Hel.
    simpl Nat.sub. rewrite Nat.sub_0_r.
    rewrite toggle_no_marker.
    - rewrite (insert_remove_nth _ _ _ Hj).
      rewrite (update_at_twice _ _ _ _ _ Hpar).
      f_equal. apply (update_at_same _ _ _ _ Hpar).
      destruct par; [reflexivity | discriminate].
    - unfold no_marker_before in *.
      rewrite previousElementSibling_remove by lia.
      destruct (previousElementSibling (childNodes par) j) as [j'|] eqn:E;
        [|exact I].
      rewrite nth_error_remove_before
        by (eapply previousElementSibling_lt; eauto).
      exact Hprev. }
  { intros j m Hj Hm Hmark. unfold click, toggle.
    now rewrite Hpar, Hj, Hm, Hmark. }
  intros Hprev.
  assert (Hlen : i <= List.length (childNodes par)).
  { apply Nat.lt_le_incl. apply nth_error_Some. congruence. }
  assert (Hel : is_element par = true)
    by (eapply nth_error_is_element; eauto).
  assert (Hclick : click root parent i
                   = (update_at parent
                        (set_childNodes (insert_nth i pageBreak (childNodes par)))
                        root, S i)).
  { unfold click. rewrite Hpar, (toggle_no_marker _ _ Hprev). reflexivity. }
  split.
  - rewrite Hclick. simpl fst. simpl snd.
    exists (set_childNodes (insert_nth i pageBreak (childNodes par)) par).
    split; [now apply get_update_at|]. split; [reflexivity|].
    rewrite childNodes_set by exact Hel.
    split; [now apply nth_error_insert_nth|].
    now rewrite nth_error_insert_after.
  - unfold click_twice. rewrite Hclick. unfold click.
    rewrite (get_update_at _ _ _ _ Hpar).
    rewrite childNodes_set by exact Hel.
    rewrite (toggle_inserts _ _ Hlen).
    rewrite (update_at_twice _ _ _ _ _ Hpar).
    f_equal. apply (update_at_same _ _ _ _ Hpar).
    destruct par; [reflexivity | discriminate].
Qed.

(** The theorem at a body with two paragraphs, clicking the second. *)
Lemma click_toggles_witness :
  click_twice
    (Element "body" [] []
       [Element "p" [] [] [Text "one"]; Element "p" [] [] [Text "two"]])
    [] 1
  = (Element "body" [] []
       [Element "p" [] [] [Text "one"]; Element "p" [] [] [Text "two"]], 1).
Proof.
  refine (proj2 (proj1 (proj2 (click_toggles
                   (Element "body" [] []
                      [Element "p" [] [] [Text "one"];
                       Element "p" [] [] [Text "two"]])
                   [] 1 _ (Element "p" [] [] [Text "two"])
                   eq_refl eq_refl)) _)).
  reflexivity.
Defined.

(** C7 as stated fails: with two markers in front of a paragraph (the state
    reached from [p1, p2] by clicking [p2] and then the marker just inserted),
    two clicks on the paragraph remove both markers. *)
Lemma two_clicks_counterexample :
  click (Element "body" [] [] [Element "p" [] [] []; Element "p" [] [] []])
        [] 1
  = (Element "body" [] []
       [Element "p" [] [] []; pageBreak; Element "p" [] [] []], 2)
  /\ click (Element "body" [] []
              [Element "p" [] [] []; pageBreak; Element "p" [] [] []])
           [] 1
     = (Element "body" [] []
          [Element "p" [] [] []; pageBreak; pageBreak; Element "p" [] [] []],
        2)
  /\ click_twice
       (Element "body" [] []
          [Element "p" [] [] []; pageBreak; pageBreak; Element "p" [] [] []])
       [] 3
     = (Element "body" [] [] [Element "p" [] [] []; Element "p" [] [] []], 1)
  /\ fst (click_twice
            (Element "body" [] []
               [Element "p" [] [] []; pageBreak; pageBreak;
                Element "p" [] [] []])
            [] 3)
     <> Element "body" [] []
          [Element "p" [] [] []; pageBreak; pageBreak; Element "p" [] [] []].
Proof.
  repeat split; try reflexivity. simpl. discriminate.
Qed.

(** *** What a click never touches *)

(** The tree with every marker element removed. *)
Fixpoint content (n : node) : node :=
  match n with
  | Element t c a kids =>
      Element t c a
        (flat_map (fun k => if is_marker k then [] else [content k]) kids)
  | Text d => Text d
  end.

(** The children of a node, markers removed. *)
Definition content_of (kids : list node) : list node :=
  flat_map (fun k => if is_marker k then [] else [content k]) kids.

Lemma content_of_insert i x kids :
  is_marker x = true -> content_of (insert_nth i x kids) = content_of kids.
Proof.
  intros Hx. unfold content_of.
  revert kids. induction i as [|i IH]; intros [|y t]; simpl;
    try (now rewrite Hx). now rewrite IH.
Qed.

Lemma content_of_remove j m kids :
  nth_error kids j = Some m -> is_marker m = true ->
  content_of (remove_nth j kids) = content_of kids.
Proof.
  intros Hn Hm. unfold content_of.
  revert kids Hn. induction j as [|j IH]; intros [|y t] Hn; simpl in *;
    try discriminate.
  - injection Hn as ->. now rewrite Hm.
  - now rewrite IH.
Qed.

Lemma content_of_toggle kids i :
  content_of (fst (toggle kids i)) = content_of kids.
Proof.
  unfold toggle.
  destruct (previousElementSibling kids i) as [j|];
    [|now apply content_of_insert].
  destruct (nth_error kids j) as [m|] eqn:E; [|now apply content_of_insert].
  destruct (is_marker m) eqn:Em; cbn [fst].
  - now apply (content_of_remove j m).
  - now apply content_of_insert.
Qed.

Lemma is_marker_update_at p ks n :
  is_marker (update_at p (set_childNodes ks) n) = is_marker n.
Proof. destruct p, n; reflexivity. Qed.

Lemma content_update_at p ks root par :
  get_at p root = Some par ->
  content_of ks = content_of (childNodes par) ->
  content (update_at p (set_childNodes ks) root) = content root.
Proof.
  revert root. induction p as [|i p IH]; intros root Hget Hks; simpl in *.
  - injection Hget as ->. destruct par as [t c a kids|d]; [|reflexivity].
    cbn [set_childNodes content]. f_equal. exact Hks.
  - destruct (nth_error (childNodes root) i) as [k|] eqn:E; [|discriminate].
    destruct root as [t c a kids|d]; [|now destruct i].
    cbn [childNodes set_childNodes content] in *. f_equal.
    clear -E IH Hget Hks. revert kids E.
    induction i as [|i IHi]; intros [|y r] E; simpl in *; try discriminate.
    + injection E as ->. now rewrite is_marker_update_at, (IH _ Hget Hks).
    + now rewrite (IHi r E).
Qed.

(** X8. A click only ever adds or removes marker elements: with all
    markers left out, the DOM after a click is the DOM before it. No
    content is lost, duplicated or moved. *)
Theorem click_keeps_content root parent i :
  content (fst (click root parent i)) = content root.
Proof.
  unfold click. destruct (get_at parent root) as [par|] eqn:E; [|reflexivity].
  pose proof (content_of_toggle (childNodes par) i) as H.
  destruct (toggle (childNodes par) i) as [kids i']. cbn [fst] in *.
  now apply (content_update_at parent kids root par).
Qed.

End PageBreak.

(* ===================================================================== *)
(** ** Internal-link repair ([renderMarkdown], render.ts 260-268) *)
(* ===================================================================== *)

Module Links.
Import Dom.

Fixpoint getAttribute (name : string) (attrs : list (string * string))
  : option string :=
  match attrs with
  | [] => None
  | (k, v) :: rest =>
      if String.eqb k name then Some v else getAttribute name rest
  end.

Definition removeAttribute (name : string) (attrs : list (string * string))
  : list (string * string) :=
  filter (fun kv => negb (String.eqb (fst kv) name)) attrs.

(** The selector [a.internal-link]. *)
Definition is_internal_link (n : node) : bool :=
  has_tag "a" n && has_class "internal-link" n.

(** [const [title, anchor] = el.dataset.href?.split("#") ?? []]; a missing
    component is [undefined]. *)
Definition title_anchor (attrs : list (string * string))
  : option string * option string :=
  match getAttribute "data-href" attrs with
  | Some h =>
      let parts := JS.split_on "#" h in (nth_error parts 0, nth_error parts 1)
  | None => (None, None)
  end.

(** [!title || title?.length == 0 || title == file.basename]. *)
Definition title_is_current (basename : string) (title : option string)
  : bool :=
  match title with
  | None => true
  | Some t =>
      String.eqb t "" || Nat.eqb (String.length t) 0 || String.eqb t basename
  end.

(** [anchor?.startsWith("^")], with [undefined] read as false. *)
Definition anchor_is_block (anchor : option string) : bool :=
  match anchor with
  | Some a => JS.startsWith a "^"
  | None => false
  end.

(** The condition of line 263 under which the callback returns early. *)
Definition keeps_href (basename : string) (attrs : list (string * string))
  : bool :=
  title_is_current basename (fst (title_anchor attrs))
  && anchor_is_block (snd (title_anchor attrs)).

(** The [forEach] callback on one element of the [findAll] result. *)
Definition repair_link (basename : string) (n : node) : node :=
  match n with
  | Element t c a k =>
      if is_internal_link n && negb (keeps_href basename a)
      then Element t c (removeAttribute "href" a) k
      else n
  | Text d => Text d
  end.

(** The callback applied to a node and to all its descendants: each
    matching element is visited once and only its own attributes change. *)
Fixpoint repair (basename : string) (n : node) : node :=
  match n with
  | Element t c a kids =>
      repair_link basename (Element t c a (map (repair basename) kids))
  | Text d => Text d
  end.

(** [printEl.findAll("a.internal-link").forEach(...)]: the descendants of
    [printEl]. *)
Definition repair_links (basename : string) (printEl : node) : node :=
  set_childNodes (map (repair basename) (childNodes printEl)) printEl.

(** *** Repair commutes with taking a subtree *)

Lemma repair_Element basename t c a kids :
  repair basename (Element t c a kids)
  = Element t c
      (if is_internal_link (Element t c a kids) && negb (keeps_href basename a)
       then removeAttribute "href" a else a)
      (map (repair basename) kids).
Proof.
  cbn [repair]. unfold repair_link, is_internal_link, has_tag, has_class.
  now destruct (("a" =? t)%string && existsb (String.eqb "internal-link") c
                && negb (keeps_href basename a)).
Qed.

Lemma get_at_repair basename p n :
  get_at p (repair basename n) = option_map (repair basename) (get_at p n).
Proof.
  revert n. induction p as [|i p IH]; intros n; [reflexivity|].
  destruct n as [t c a kids|d]; [|now destruct i].
  rewrite repair_Element. simpl. rewrite nth_error_map.
  destruct (nth_error kids i) as [k|]; simpl; [apply IH | reflexivity].
Qed.

Lemma getAttribute_removed name attrs :
  getAttribute name (removeAttribute name attrs) = None.
Proof.
  induction attrs as [|[k v] rest IH]; [reflexivity|]. simpl.
  destruct (String.eqb_spec k name) as [E|E]; simpl; [exact IH|].
  apply String.eqb_neq in E. now rewrite E.
Qed.

(** C4. Take any internal link below the print container, with its title
    and anchor read off [data-href]. If the title is neither missing, empty
    nor the base name of the current note, or the anchor is missing or does
    not start with the block marker, the repaired link has no [href]. If the
    title is missing, empty or the base name and the anchor starts with the
    marker, the link keeps all its attributes. *)
Theorem link_repair basename printEl i p t cls attrs kids :
  get_at (i :: p) printEl = Some (Element t cls attrs kids) ->
  is_internal_link (Element t cls attrs kids) = true ->
  exists attrs' kids',
    get_at (i :: p) (repair_links basename printEl)
    = Some (Element t cls attrs' kids') /\
    (forall title,
        fst (title_anchor attrs) = Some title ->
        title <> "" -> title <> basename ->
        attrs' = removeAttribute "href" attrs
        /\ getAttribute "href" attrs' = None) /\
    ((forall a, snd (title_anchor attrs) = Some a ->
                JS.startsWith a "^" = false) ->
        attrs' = removeAttribute "href" attrs
        /\ getAttribute "href" attrs' = None) /\
    (forall a,
        (fst (title_anchor attrs) = None
         \/ fst (title_anchor attrs) = Some ""
         \/ fst (title_anchor attrs) = Some basename) ->
        snd (title_anchor attrs) = Some a -> JS.startsWith a "^" = true ->
        attrs' = attrs).
Proof.
  intros Hget Hlink.
  exists (if keeps_href basename attrs then attrs
          else removeAttribute "href" attrs),
         (map (repair basename) kids).
  split.
  - unfold repair_links. simpl in Hget.
    destruct (nth_error (childNodes printEl) i) as [k|] eqn:E; [|discriminate].
    simpl get_at.
    rewrite childNodes_set by (eapply nth_error_is_element; eauto).
    rewrite nth_error_map, E. cbn [option_map].
    rewrite get_at_repair, Hget. cbn [option_map].
    rewrite repair_Element, Hlink. cbn [andb].
    now destruct (keeps_href basename attrs).
  - unfold keeps_href, title_is_current, anchor_is_block.
    split; [|split].
    + intros title Ht Hne Hnb. rewrite Ht.
      apply String.eqb_neq in Hne, Hnb. rewrite Hne, Hnb.
      destruct title as [|x title]; [now apply String.eqb_neq in Hne|].
      simpl. split; [reflexivity | apply getAttribute_removed].
    + intros Ha. destruct (snd (title_anchor attrs)) as [a|].
      * rewrite (Ha a eq_refl), andb_false_r.
        split; [reflexivity | apply getAttribute_removed].
      * rewrite andb_false_r.
        split; [reflexivity | apply getAttribute_removed].
    + intros a Ht Ha Hs. rewrite Ha, Hs.
      destruct Ht as [->|[->| ->]]; simpl; [reflexivity..|].
      now rewrite String.eqb_refl, !orb_true_r.
Qed.

(** The theorem at a link to another note. *)
Lemma link_repair_witness :
  exists attrs' kids',
    get_at [0]
      (repair_links "Note"
         (Element "div" ["print"] []
            [Element "a" ["internal-link"]
               [("data-href", "Other#^x"); ("href", "Other#^x")]
               [Text "Other"]]))
    = Some (Element "a" ["internal-link"] attrs' kids')
    /\ attrs' = [("data-href", "Other#^x")].
Proof.
  destruct (link_repair "Note"
              (Element "div" ["print"] []
                 [Element "a" ["internal-link"]
                    [("data-href", "Other#^x"); ("href", "Other#^x")]
                    [Text "Other"]])
              0 [] "a" ["internal-link"]
              [("data-href", "Other#^x"); ("href", "Other#^x")]
              [Text "Other"] eq_refl eq_refl)
    as [attrs' [kids' [Hget [Htitle _]]]].
  exists attrs', kids'. split; [exact Hget|].
  destruct (Htitle "Other" eq_refl) as [-> _]; [discriminate..|reflexivity].
Defined.

(** *** Further properties of the repair *)

(** The tree with the [href] of every internal link removed. *)
Fixpoint without_href (n : node) : node :=
  match n with
  | Element t c a kids =>
      Element t c
        (if is_internal_link n then removeAttribute "href" a else a)
        (map without_href kids)
  | Text d => Text d
  end.

Lemma removeAttribute_twice name attrs :
  removeAttribute name (removeAttribute name attrs)
  = removeAttribute name attrs.
Proof.
  unfold removeAttribute. induction attrs as [|kv rest IH]; [reflexivity|].
  simpl. destruct (negb (fst kv =? name)%string) eqn:E; simpl.
  - now rewrite E, IH.
  - exact IH.
Qed.

Lemma getAttribute_remove_other name other attrs :
  name <> other ->
  getAttribute name (removeAttribute other attrs) = getAttribute name attrs.
Proof.
  intros Hne. induction attrs as [|[k v] rest IH]; [reflexivity|]. simpl.
  destruct (String.eqb_spec k other) as [->|Hk]; simpl.
  - apply String.eqb_neq in Hne. rewrite String.eqb_sym in Hne.
    now rewrite Hne.
  - now rewrite IH.
Qed.

Lemma keeps_href_removed basename attrs :
  keeps_href basename (removeAttribute "href" attrs)
  = keeps_href basename attrs.
Proof.
  unfold keeps_href, title_anchor.
  now rewrite getAttribute_remove_other by discriminate.
Qed.

Lemma map_ext_Forall {A B} (f g : A -> B) l :
  Forall (fun x => f x = g x) l -> map f l = map g l.
Proof. induction 1 as [|x l H _ IH]; simpl; [reflexivity | now rewrite H, IH]. Qed.

Lemma is_internal_link_shape t c a1 k1 a2 k2 :
  is_internal_link (Element t c a1 k1) = is_internal_link (Element t c a2 k2).
Proof. reflexivity. Qed.

(** X6. Link repair changes nothing but the [href] of internal links: the
    repaired container and the original agree once every internal link is
    stripped of its [href]. Tags, classes, other attributes, text and tree
    shape are kept. *)
Theorem repair_touches_only_href basename printEl :
  without_href (repair_links basename printEl) = without_href printEl.
Proof.
  assert (H : forall n, without_href (repair basename n) = without_href n).
  { induction n as [d|t c a kids IH] using node_nested_ind; [reflexivity|].
    rewrite repair_Element. cbn [without_href].
    rewrite (is_internal_link_shape t c _ (map (repair basename) kids) a kids).
    rewrite map_map. f_equal.
    - destruct (is_internal_link (Element t c a kids)); [|reflexivity].
      cbn [andb].
      destruct (negb (keeps_href basename a)); [|reflexivity].
      apply removeAttribute_twice.
    - now apply map_ext_Forall. }
  destruct printEl as [t c a kids|d]; [|reflexivity].
  unfold repair_links. cbn [childNodes set_childNodes without_href].
  rewrite map_map. f_equal. apply map_ext_Forall.
  apply Forall_forall. intros k _. apply H.
Qed.

(** X7. Link repair is idempotent: repairing a repaired container changes
    nothing, because the decision reads [data-href] only and removing
    [href] leaves it in place. *)
Theorem repair_links_idempotent basename printEl :
  repair_links basename (repair_links basename printEl)
  = repair_links basename printEl.
Proof.
  assert (H : forall n, repair basename (repair basename n) = repair basename n).
  { induction n as [d|t c a kids IH] using node_nested_ind; [reflexivity|].
    rewrite !repair_Element.
    rewrite (is_internal_link_shape t c _ (map (repair basename) kids) a kids).
    rewrite map_map. f_equal.
    - destruct (is_internal_link (Element t c a kids)); [|reflexivity].
      cbn [andb].
      destruct (negb (keeps_href basename a)) eqn:E.
      + rewrite keeps_href_removed, E. apply removeAttribute_twice.
      + now rewrite E.
    - now apply map_ext_Forall. }
  destruct printEl as [t c a kids|d]; [|reflexivity].
  unfold repair_links. cbn [childNodes set_childNodes].
  rewrite map_map. f_equal. apply map_ext_Forall.
  apply Forall_forall. intros k _. apply H.
Qed.

End Links.

(* ===================================================================== *)
(** ** Anchor placement and link repair inside [renderMarkdown] *)
(* ===================================================================== *)

Module Transform.
Import Dom.

(** What one call of [renderMarkdown] reads. The first four fields are the
    source text ([view.data]), the block index ([cache.blocks]), the base
    name of the note and the print container as the host's renderer and
    post-processor leave it, which carries the internal links. The others
    are ambient state the function also consults: the clock read for
    [startTime] and at the end, the random digits consumed by
    [generateDocId], and the title flag of the configuration. *)
Record Env := mkEnv {
  data : option string;
  blocks : Anchors.BlockMap;
  basename : string;
  printEl : node;
  clock_start : nat;
  clock_end : nat;
  random : list nat;
  showTitle : bool
}.

Record Outcome := mkOutcome {
  lines : Anchors.JsArray;
  markdown : string;
  repaired : node;
  docId : list nat;
  elapsed : nat
}.

(** [generateDocId(16)]: sixteen hexadecimal digits drawn from
    [Math.random]. *)
Definition generateDocId (n : nat) (rnd : list nat) : list nat :=
  map (fun r => r mod 16) (firstn n rnd).

Definition renderMarkdown (e : Env) : Outcome :=
  let ls := Anchors.place_anchors (blocks e) (data e) in
  {| lines := ls;
     markdown := Anchors.joined ls;
     repaired := Links.repair_links (basename e) (printEl e);
     docId := generateDocId 16 (random e);
     elapsed := clock_end e - clock_start e |}.

(** C9. Two runs that read the same source text, block index, base name
    and rendered links produce the same anchor placements, the same text for
    the renderer and the same repaired links, whatever the clock, the random
    document id and the title flag are in each run. *)
Theorem transform_deterministic e1 e2 :
  data e1 = data e2 -> blocks e1 = blocks e2 ->
  basename e1 = basename e2 -> printEl e1 = printEl e2 ->
  lines (renderMarkdown e1) = lines (renderMarkdown e2)
  /\ Anchors.placements (blocks e1) (data e1)
     = Anchors.placements (blocks e2) (data e2)
  /\ markdown (renderMarkdown e1) = markdown (renderMarkdown e2)
  /\ repaired (renderMarkdown e1) = repaired (renderMarkdown e2).
Proof.
  intros Hd Hb Hn Hp. unfold renderMarkdown. simpl.
  rewrite Hd, Hb, Hn, Hp. repeat split.
Qed.

(** The theorem at two runs that differ in clock, random digits and title
    flag. *)
Lemma transform_deterministic_witness :
  repaired
    (renderMarkdown
       (mkEnv (Some "x ^k") [("k", Anchors.mkBlock "k" 0 0)] "Note"
          (Element "div" ["print"] []
             [Element "a" ["internal-link"] [("data-href", "Other")] []])
          0 5 [1; 2; 3] true))
  = repaired
      (renderMarkdown
         (mkEnv (Some "x ^k") [("k", Anchors.mkBlock "k" 0 0)] "Note"
            (Element "div" ["print"] []
               [Element "a" ["internal-link"] [("data-href", "Other")] []])
            7 40 [9; 9] false)).
Proof.
  exact (proj2 (proj2 (proj2
    (transform_deterministic
       (mkEnv (Some "x ^k") [("k", Anchors.mkBlock "k" 0 0)] "Note"
          (Element "div" ["print"] []
             [Element "a" ["internal-link"] [("data-href", "Other")] []])
          0 5 [1; 2; 3] true)
       (mkEnv (Some "x ^k") [("k", Anchors.mkBlock "k" 0 0)] "Note"
          (Element "div" ["print"] []
             [Element "a" ["internal-link"] [("data-href", "Other")] []])
          7 40 [9; 9] false)
       eq_refl eq_refl eq_refl eq_refl)))).
Defined.

End Transform.

(* ===================================================================== *)
(** ** Rendering pass and merger ([renderFiles], [mergeDoc],
       [appendWebviews]) *)
(* ===================================================================== *)

Module Merge.
Import Dom.

Definition FrontMatter := list (string * string).

(** A [DocType] value: a reference to a [Document], the front matter and
    the source file. *)
Record DocType := mkDoc {
  doc : nat;
  frontMatter : FrontMatter;
  file : string
}.

(** The documents by reference, each given by its root element. Mutating a
    document is an update of the heap at its reference. *)
Definition Heap := nat -> node.

Definition heap_set (h : Heap) (r : nat) (n : node) : Heap :=
  fun r' => if Nat.eqb r' r then n else h r'.

(** The selector [.markdown-preview-view]. *)
Definition is_view (n : node) : bool := has_class "markdown-preview-view" n.

(** [doc0.importNode(child, deep)]: a copy owned by [doc0]. The source
    document keeps its own nodes. *)
Definition importNode (child : node) (deep : bool) : node :=
  if deep then child else set_childNodes [] child.

(** The body of the loop of lines 145-156 for one document. *)
Definition section_of (h : Heap) (d : DocType) : option node :=
  match querySelector is_view (h (doc d)) with
  | Some p =>
      match get_at p (h (doc d)) with
      | Some element =>
          Some (Element "section" [] []
                  (map (fun child => importNode child true)
                       (children element)))
      | None => None
      end
  | None => None
  end.

(** The array [sections] after the loop. *)
Fixpoint sections_of (h : Heap) (ds : list DocType) : list node :=
  match ds with
  | [] => []
  | d :: rest =>
      match section_of h d with
      | Some s => s :: sections_of h rest
      | None => sections_of h rest
      end
  end.

(** The fields of the modal the rendering pass touches: the
    multiple-output flag, [this.docs] and the documents shown by
    [this.webviews]. *)
Record Modal := mkModal {
  multiple : bool;
  docs : list DocType;
  webviews : list nat
}.

Definition set_docs (m : Modal) (ds : list DocType) : Modal :=
  {| multiple := multiple m; docs := ds; webviews := webviews m |}.

Definition set_webviews (m : Modal) (ws : list nat) : Modal :=
  {| multiple := multiple m; docs := docs m; webviews := ws |}.

(** [mergeDoc(docs)]. Destructuring [docs[0]] of an empty array throws,
    which is [None]. Emptying the root and appending the sections leaves
    the sections as its children. *)
Definition mergeDoc (m : Modal) (h : Heap) (ds : list DocType)
  : option (Modal * Heap) :=
  match ds with
  | [] => None
  | d0 :: _ =>
      let sections := sections_of h ds in
      let root0 :=
        match querySelector is_view (h (doc d0)) with
        | Some p => update_at p (set_childNodes sections) (h (doc d0))
        | None => h (doc d0)
        end in
      Some (set_docs m [mkDoc (doc d0) (frontMatter d0) (file d0)],
            heap_set h (doc d0) root0)
  end.

Section RenderPass.
(** [fixDoc(doc, doc.title)] as a rewrite of the document it is given;
    it returns the same reference. *)
Variable fixDoc : node -> node.

(** [docs.map(({ doc, ...rest }) => ({ ...rest, doc: fixDoc(doc, ...) }))]
    on the heap. *)
Definition fix_all (h : Heap) (ds : list DocType) : Heap :=
  fold_left (fun h' d => heap_set h' (doc d) (fixDoc (h' (doc d)))) ds h.

(** Lines 134-139 of [renderFiles]; [rendered] is the local array [docs]
    the calls of [renderMarkdown] filled. *)
Definition renderFiles (m : Modal) (h : Heap) (rendered : list DocType)
  : option (Modal * Heap) :=
  match (if multiple m then Some (m, h) else mergeDoc m h rendered) with
  | Some (m1, h1) =>
      Some (set_docs m1
              (map (fun d => mkDoc (doc d) (frontMatter d) (file d))
                   rendered),
            fix_all h1 rendered)
  | None => None
  end.

(** [appendWebviews(e, true)]: one surface per entry of [this.docs],
    pushed on [this.webviews]. *)
Definition appendWebviews (m : Modal) (h : Heap) (rendered : list DocType)
  : option (Modal * Heap) :=
  match renderFiles m h rendered with
  | Some (m1, h1) =>
      Some (set_webviews m1 (webviews m1 ++ map doc (docs m1)), h1)
  | None => None
  end.
End RenderPass.

(** A rendered document has a primary content container. *)
Definition has_view (h : Heap) (d : DocType) : Prop :=
  querySelector is_view (h (doc d)) <> None.

(** The primary content container of a document. *)
Definition view_of (h : Heap) (d : DocType) : option node :=
  match querySelector is_view (h (doc d)) with
  | Some p => get_at p (h (doc d))
  | None => None
  end.

Lemma is_view_set_childNodes m l : is_view (set_childNodes l m) = is_view m.
Proof. now destruct m. Qed.

Lemma map_importNode l : map (fun child => importNode child true) l = l.
Proof. exact (map_id l). Qed.

Lemma has_view_section h d :
  has_view h d ->
  exists element,
    view_of h d = Some element /\
    section_of h d = Some (Element "section" [] [] (children element)).
Proof.
  unfold has_view, view_of, section_of.
  destruct (querySelector is_view (h (doc d))) as [p|] eqn:E; [|congruence].
  intros _. destruct (querySelector_get _ _ _ E) as [m [Hm _]].
  exists m. rewrite Hm, map_importNode. auto.
Qed.

Lemma sections_of_length h ds :
  Forall (has_view h) ds -> List.length (sections_of h ds) = List.length ds.
Proof.
  induction 1 as [|d ds Hd _ IH]; [reflexivity|]. simpl.
  destruct (has_view_section h d Hd) as [el [_ ->]]. simpl. now rewrite IH.
Qed.

Lemma sections_of_nth h ds i d :
  Forall (has_view h) ds -> nth_error ds i = Some d ->
  exists element,
    view_of h d = Some element /\
    nth_error (sections_of h ds) i
    = Some (Element "section" [] [] (children element)).
Proof.
  intros H. revert i. induction H as [|d' ds Hd _ IH]; intros i Hi.
  - now destruct i.
  - simpl. destruct (has_view_section h d' Hd) as [el [Hv Hs]]. rewrite Hs.
    destruct i as [|i]; simpl in *.
    + injection Hi as <-. exists el. auto.
    + now apply IH.
Qed.

(** C3. Merging [N] rendered documents, each with its primary content
    container, succeeds; the surviving document is the first one, with the
    front matter and source file of the first input; its container then has
    exactly [N] children, all [section] elements, in input order, the one for
    input [i] holding a copy of the element children of the container of
    input [i]; and every other document is left as it was, so the sections
    hold copies, not the source nodes. *)
Theorem mergeDoc_sections m h d0 rest :
  Forall (has_view h) (d0 :: rest) ->
  exists h' p container,
    mergeDoc m h (d0 :: rest) = Some (set_docs m [d0], h') /\
    querySelector is_view (h' (doc d0)) = Some p /\
    get_at p (h' (doc d0)) = Some container /\
    List.length (childNodes container) = S (List.length rest) /\
    (forall i d,
        nth_error (d0 :: rest) i = Some d ->
        exists element,
          view_of h d = Some element /\
          nth_error (childNodes container) i
          = Some (Element "section" [] [] (children element))) /\
    (forall r, r <> doc d0 -> h' r = h r).
Proof.
  intros Hall.
  assert (H0 : has_view h d0) by (inversion Hall; assumption).
  unfold has_view in H0.
  destruct (querySelector is_view (h (doc d0))) as [p|] eqn:Ep; [|congruence].
  destruct (querySelector_get _ _ _ Ep) as [el [Hel Hv]].
  exists (heap_set h (doc d0)
            (update_at p (set_childNodes (sections_of h (d0 :: rest)))
               (h (doc d0)))),
         p, (set_childNodes (sections_of h (d0 :: rest)) el).
  assert (Helem : is_element el = true) by (destruct el; [reflexivity | discriminate]).
  split; [|split; [|split; [|split; [|split]]]].
  - unfold mergeDoc. rewrite Ep. now destruct d0.
  - unfold heap_set. rewrite Nat.eqb_refl.
    apply querySelector_update; [apply is_view_set_childNodes | exact Ep].
  - unfold heap_set. rewrite Nat.eqb_refl. now apply get_update_at.
  - rewrite childNodes_set by exact Helem.
    now rewrite (sections_of_length h _ Hall).
  - intros i d Hi. rewrite childNodes_set by exact Helem.
    now apply sections_of_nth.
  - intros r Hr. unfold heap_set.
    apply Nat.eqb_neq in Hr. now rewrite Hr.
Qed.

(** The theorem at two documents with one paragraph each. *)
Lemma mergeDoc_sections_witness :
  exists h' p container,
    mergeDoc (mkModal false [] [])
      (fun r =>
         Element "div" ["markdown-preview-view"] []
           [Element "p" [] [] [Text (if Nat.eqb r 0 then "a" else "b")]])
      [mkDoc 0 [] "a.md"; mkDoc 1 [] "b.md"]
    = Some (set_docs (mkModal false [] []) [mkDoc 0 [] "a.md"], h') /\
    querySelector is_view (h' 0) = Some p /\
    get_at p (h' 0) = Some container /\
    List.length (childNodes container) = 2.
Proof.
  destruct (mergeDoc_sections (mkModal false [] [])
              (fun r =>
                 Element "div" ["markdown-preview-view"] []
                   [Element "p" [] [] [Text (if Nat.eqb r 0 then "a" else "b")]])
              (mkDoc 0 [] "a.md") [mkDoc 1 [] "b.md"])
    as [h' [p [c [H1 [H2 [H3 [H4 _]]]]]]].
  - repeat constructor; discriminate.
  - exists h', p, c. auto.
Defined.

(** C1, what the code does. In single-output mode, after the rendering
    pass [this.docs] has one entry per rendered document, because line 137
    overwrites the single entry [mergeDoc] stored; so [appendWebviews]
    creates a surface for every rendered document, not one. *)
Theorem appendWebviews_one_surface_per_document fixDoc h d0 rest :
  option_map (fun r => (docs (fst r), webviews (fst r)))
    (appendWebviews fixDoc (mkModal false [] []) h (d0 :: rest))
  = Some (d0 :: rest, map doc (d0 :: rest)).
Proof.
  unfold appendWebviews, renderFiles. cbn [multiple mergeDoc option_map].
  cbn [set_docs set_webviews fst docs webviews app].
  assert (E : forall l, map (fun d => mkDoc (doc d) (frontMatter d) (file d)) l = l).
  { induction l as [|[? ? ?] l IH]; simpl; [reflexivity | now rewrite IH]. }
  now rewrite E.
Qed.

(** Two rendered documents in single-output mode: two entries and two
    surfaces. *)
Example two_documents_two_surfaces :
  option_map (fun r => (List.length (docs (fst r)),
                        List.length (webviews (fst r))))
    (appendWebviews (fun n => n) (mkModal false [] [])
       (fun _ => Element "div" ["markdown-preview-view"] [] [])
       [mkDoc 0 [] "a.md"; mkDoc 1 [] "b.md"])
  = Some (2, 2).
Proof. reflexivity. Qed.

(** *** Further properties of the merger and of the rendering pass *)

Definition has_view_b (h : Heap) (d : DocType) : bool :=
  match querySelector is_view (h (doc d)) with
  | Some _ => true
  | None => false
  end.

Lemma sections_of_count h ds :
  List.length (sections_of h ds) = List.length (filter (has_view_b h) ds).
Proof.
  induction ds as [|d ds IH]; [reflexivity|]. simpl.
  unfold section_of, has_view_b.
  destruct (querySelector is_view (h (doc d))) as [p|] eqn:E; [|exact IH].
  destruct (querySelector_get _ _ _ E) as [el [-> _]]. simpl. now rewrite IH.
Qed.

(** X9. A document without a primary content container is skipped by the
    merge: the surviving container receives one section per input document
    that has a container, not one per input document. *)
Theorem mergeDoc_skips_documents_without_view m h d0 rest p :
  querySelector is_view (h (doc d0)) = Some p ->
  exists h' container,
    mergeDoc m h (d0 :: rest) = Some (set_docs m [d0], h') /\
    get_at p (h' (doc d0)) = Some container /\
    List.length (childNodes container)
    = List.length (filter (has_view_b h) (d0 :: rest)).
Proof.
  intros Ep. destruct (querySelector_get _ _ _ Ep) as [el [Hel Hv]].
  exists (heap_set h (doc d0)
            (update_at p (set_childNodes (sections_of h (d0 :: rest)))
               (h (doc d0)))),
         (set_childNodes (sections_of h (d0 :: rest)) el).
  split; [|split].
  - unfold mergeDoc. rewrite Ep. now destruct d0.
  - unfold heap_set. rewrite Nat.eqb_refl. now apply get_update_at.
  - rewrite childNodes_set by (destruct el; [reflexivity | discriminate]).
    apply sections_of_count.
Qed.

(** The theorem at two documents of which the second has no container. *)
Lemma mergeDoc_skips_documents_without_view_witness :
  exists h' container,
    mergeDoc (mkModal false [] [])
      (fun r =>
         if Nat.eqb r 0
         then Element "div" ["markdown-preview-view"] [] [Element "p" [] [] []]
         else Element "div" [] [] [Element "p" [] [] []])
      [mkDoc 0 [] "a.md"; mkDoc 1 [] "b.md"]
    = Some (set_docs (mkModal false [] []) [mkDoc 0 [] "a.md"], h') /\
    get_at [] (h' 0) = Some container /\
    List.length (childNodes container) = 1.
Proof.
  exact (mergeDoc_skips_documents_without_view (mkModal false [] [])
           (fun r =>
              if Nat.eqb r 0
              then Element "div" ["markdown-preview-view"] []
                     [Element "p" [] [] []]
              else Element "div" [] [] [Element "p" [] [] []])
           (mkDoc 0 [] "a.md") [mkDoc 1 [] "b.md"] [] eq_refl).
Defined.

(** X10. When the first document has no primary content container the
    merge changes no document at all, yet [this.docs] is reduced to the first
    document: the content of every other document is dropped. *)
Theorem mergeDoc_without_root_drops_the_rest m h d0 rest :
  querySelector is_view (h (doc d0)) = None ->
  exists h',
    mergeDoc m h (d0 :: rest) = Some (set_docs m [d0], h') /\
    forall r, h' r = h r.
Proof.
  intros E. exists (heap_set h (doc d0) (h (doc d0))). split.
  - unfold mergeDoc. rewrite E. now destruct d0.
  - intros r. unfold heap_set.
    destruct (Nat.eqb_spec r (doc d0)) as [->|_]; reflexivity.
Qed.

(** The theorem at a first document without container. *)
Lemma mergeDoc_without_root_drops_the_rest_witness :
  exists h',
    mergeDoc (mkModal false [] [])
      (fun r =>
         if Nat.eqb r 0 then Element "div" [] [] []
         else Element "div" ["markdown-preview-view"] [] [Text "kept?"])
      [mkDoc 0 [] "a.md"; mkDoc 1 [] "b.md"]
    = Some (set_docs (mkModal false [] []) [mkDoc 0 [] "a.md"], h') /\
    forall r,
      h' r = (if Nat.eqb r 0 then Element "div" [] [] []
              else Element "div" ["markdown-preview-view"] [] [Text "kept?"]).
Proof.
  exact (mergeDoc_without_root_drops_the_rest (mkModal false [] [])
           (fun r =>
              if Nat.eqb r 0 then Element "div" [] [] []
              else Element "div" ["markdown-preview-view"] [] [Text "kept?"])
           (mkDoc 0 [] "a.md") [mkDoc 1 [] "b.md"] eq_refl).
Defined.

Lemma map_mkDoc l :
  map (fun d => mkDoc (doc d) (frontMatter d) (file d)) l = l.
Proof. induction l as [|[? ? ?] l IH]; simpl; [reflexivity | now rewrite IH]. Qed.

Lemma mergeDoc_modal m h ds m1 h1 :
  mergeDoc m h ds = Some (m1, h1) ->
  multiple m1 = multiple m /\ webviews m1 = webviews m.
Proof.
  destruct ds as [|d0 rest]; [discriminate|]. simpl.
  intros [= <- _]. split; reflexivity.
Qed.

Lemma appendWebviews_modal fixDoc m h rendered m1 h1 :
  appendWebviews fixDoc m h rendered = Some (m1, h1) ->
  multiple m1 = multiple m /\ docs m1 = rendered
  /\ webviews m1 = webviews m ++ map doc rendered.
Proof.
  unfold appendWebviews, renderFiles.
  destruct (multiple m) eqn:Em.
  - intros [= <- _]. cbn. rewrite map_mkDoc, Em. auto.
  - destruct (mergeDoc m h rendered) as [[m0 h0]|] eqn:E; [|discriminate].
    destruct (mergeDoc_modal _ _ _ _ _ E) as [Hm Hw].
    intros [= <- _]. cbn. rewrite map_mkDoc, Hm, Hw, Em. auto.
Qed.

(** X20. The end of the rendering pass throws in exactly one case: an
    empty list of rendered documents (an empty folder) in single-output mode,
    where [mergeDoc] reads the first document of an empty array. *)
Theorem renderFiles_throws_iff fixDoc m h rendered :
  renderFiles fixDoc m h rendered = None
  <-> multiple m = false /\ rendered = [].
Proof.
  unfold renderFiles. destruct (multiple m); [split; [discriminate | intros [E _]; discriminate E]|].
  destruct rendered as [|d0 rest]; cbn [mergeDoc].
  - split; auto.
  - split; [discriminate | intros [_ E]; discriminate E].
Qed.

(** X11. The surfaces of an earlier rendering pass stay registered: after
    a refresh [this.webviews] holds the surfaces of both passes while
    [this.docs] holds the documents of the second pass only, so
    [this.webviews[0]] is still the first surface of the first pass. *)
Theorem refresh_keeps_old_surfaces fixDoc m h r1 r2 m1 h1 m2 h2 :
  appendWebviews fixDoc m h r1 = Some (m1, h1) ->
  appendWebviews fixDoc m1 h1 r2 = Some (m2, h2) ->
  docs m2 = r2
  /\ webviews m2 = webviews m ++ map doc r1 ++ map doc r2
  /\ (webviews m = [] -> r1 <> [] ->
      nth_error (webviews m2) 0 = nth_error (map doc r1) 0).
Proof.
  intros H1 H2.
  destruct (appendWebviews_modal _ _ _ _ _ _ H1) as [_ [_ Hw1]].
  destruct (appendWebviews_modal _ _ _ _ _ _ H2) as [_ [Hd2 Hw2]].
  split; [exact Hd2|]. split.
  - now rewrite Hw2, Hw1, <- app_assoc.
  - intros Hm Hr. rewrite Hw2, Hw1, Hm. cbn [app].
    destruct r1 as [|d r1]; [congruence | reflexivity].
Qed.

(** The theorem at a note rendered and, after a refresh, rendered again,
    in multiple-output mode. *)
Lemma refresh_keeps_old_surfaces_witness :
  docs (mkModal true [mkDoc 1 [] "a.md"] [0; 1]) = [mkDoc 1 [] "a.md"]
  /\ webviews (mkModal true [mkDoc 1 [] "a.md"] [0; 1])
     = [] ++ map doc [mkDoc 0 [] "a.md"] ++ map doc [mkDoc 1 [] "a.md"].
Proof.
  pose proof (refresh_keeps_old_surfaces (fun n => n)
                (mkModal true [] []) (fun _ => Element "div" [] [] [])
                [mkDoc 0 [] "a.md"] [mkDoc 1 [] "a.md"]
                (mkModal true [mkDoc 0 [] "a.md"] [0])
                (fix_all (fun n => n) (fun _ => Element "div" [] [] [])
                   [mkDoc 0 [] "a.md"])
                (mkModal true [mkDoc 1 [] "a.md"] [0; 1])
                (fix_all (fun n => n)
                   (fix_all (fun n => n) (fun _ => Element "div" [] [] [])
                      [mkDoc 0 [] "a.md"])
                   [mkDoc 1 [] "a.md"])
                eq_refl eq_refl) as [H1 [H2 _]].
  split; [exact H1 | exact H2].
Defined.

End Merge.

(* ===================================================================== *)
(** ** Export configuration ([ExportConfigModal.constructor]) *)
(* ===================================================================== *)

Module Config.

(** [TConfig]. *)
Record TConfig := mkConfig {
  pageSize : string;
  pageWidth : option string;
  pageHeight : option string;
  marginType : string;
  open : bool;
  landscape : bool;
  scale : nat;
  showTitle : bool;
  displayHeader : bool;
  displayFooter : bool;
  marginTop : option string;
  marginBottom : option string;
  marginLeft : option string;
  marginRight : option string;
  cssSnippet : option string;
  multiple : option bool
}.

(** A stored [prevConfig] object: [None] is a property the object does not
    have. *)
Record PartialConfig := mkPartial {
  p_pageSize : option string;
  p_pageWidth : option string;
  p_pageHeight : option string;
  p_marginType : option string;
  p_open : option bool;
  p_landscape : option bool;
  p_scale : option nat;
  p_showTitle : option bool;
  p_displayHeader : option bool;
  p_displayFooter : option bool;
  p_marginTop : option string;
  p_marginBottom : option string;
  p_marginLeft : option string;
  p_marginRight : option string;
  p_cssSnippet : option string;
  p_multiple : option bool
}.

(** The plugin settings the constructor can see. A footer setting is
    included to show that the constructor does not read it. *)
Record Settings := mkSettings {
  s_showTitle : option bool;
  s_displayHeader : option bool;
  s_displayFooter : option bool;
  s_prevConfig : option PartialConfig
}.

(** [a ?? b]. *)
Definition nullish {A} (a : option A) (b : A) : A :=
  match a with Some x => x | None => b end.

(** One property of an object spread [{ base, ...over }]. *)
Definition spread {A} (base : A) (over : option A) : A := nullish over base.

Definition spread_opt {A} (base over : option A) : option A :=
  match over with Some x => Some x | None => base end.

Definition empty_partial : PartialConfig :=
  mkPartial None None None None None None None None None None None None None
            None None None.

(** The object literal of lines 76-91. *)
Definition construct (s : Settings) : TConfig :=
  let prev := nullish (s_prevConfig s) empty_partial in
  {| pageSize := spread "A4" (p_pageSize prev);
     pageWidth := spread_opt None (p_pageWidth prev);
     pageHeight := spread_opt None (p_pageHeight prev);
     marginType := spread "1" (p_marginType prev);
     showTitle := spread (nullish (s_showTitle s) true) (p_showTitle prev);
     open := spread true (p_open prev);
     scale := spread 100 (p_scale prev);
     landscape := spread false (p_landscape prev);
     marginTop := spread_opt (Some "10") (p_marginTop prev);
     marginBottom := spread_opt (Some "10") (p_marginBottom prev);
     marginLeft := spread_opt (Some "10") (p_marginLeft prev);
     marginRight := spread_opt (Some "10") (p_marginRight prev);
     displayHeader :=
       spread (nullish (s_displayHeader s) true) (p_displayHeader prev);
     displayFooter :=
       spread (nullish (s_displayHeader s) true) (p_displayFooter prev);
     cssSnippet := spread_opt (Some "0") (p_cssSnippet prev);
     multiple := spread_opt None (p_multiple prev) |}.

(** C10. When no stored previous configuration overrides the footer flag,
    its default is the header setting (or true when that is unset), whatever
    a footer setting says; and with no previous configuration at all the
    header and footer flags are equal. *)
Theorem footer_default_follows_header s :
  (forall prev, s_prevConfig s = Some prev -> p_displayFooter prev = None) ->
  displayFooter (construct s) = nullish (s_displayHeader s) true
  /\ (s_prevConfig s = None ->
      displayHeader (construct s) = displayFooter (construct s)).
Proof.
  intros H. unfold construct. simpl. split.
  - destruct (s_prevConfig s) as [prev|]; simpl; [|reflexivity].
    now rewrite (H prev eq_refl).
  - now intros ->.
Qed.

(** The theorem at settings that hide the header and show the footer. *)
Lemma footer_default_follows_header_witness :
  displayFooter (construct (mkSettings None (Some false) (Some true) None))
  = false.
Proof.
  refine (proj1 (footer_default_follows_header
                   (mkSettings None (Some false) (Some true) None) _)).
  intros prev H. discriminate H.
Defined.

(** *** Storing and restoring a configuration *)

(** [this.plugin.settings.prevConfig = this.config] (line 312): the stored
    object has the properties the configuration has. *)
Definition stored (c : TConfig) : PartialConfig :=
  {| p_pageSize := Some (pageSize c);
     p_pageWidth := pageWidth c;
     p_pageHeight := pageHeight c;
     p_marginType := Some (marginType c);
     p_open := Some (open c);
     p_landscape := Some (landscape c);
     p_scale := Some (scale c);
     p_showTitle := Some (showTitle c);
     p_displayHeader := Some (displayHeader c);
     p_displayFooter := Some (displayFooter c);
     p_marginTop := marginTop c;
     p_marginBottom := marginBottom c;
     p_marginLeft := marginLeft c;
     p_marginRight := marginRight c;
     p_cssSnippet := cssSnippet c;
     p_multiple := multiple c |}.

(** X13. A configuration stored at export time is what the next session
    starts from, whatever the settings say, provided it has the four margins
    and the snippet choice (which every configuration the constructor built
    has). *)
Theorem stored_configuration_is_restored s c :
  marginTop c <> None -> marginBottom c <> None ->
  marginLeft c <> None -> marginRight c <> None -> cssSnippet c <> None ->
  construct (mkSettings (s_showTitle s) (s_displayHeader s)
               (s_displayFooter s) (Some (stored c))) = c.
Proof.
  destruct c as [ps pw ph mt op ls sc st dh df mT mB mL mR cs mu].
  cbn [marginTop marginBottom marginLeft marginRight cssSnippet].
  intros H1 H2 H3 H4 H5. unfold construct, stored. cbn.
  destruct mT, mB, mL, mR, cs; try congruence.
  destruct pw, ph, mu; reflexivity.
Qed.

(** The theorem at the configuration a first session builds. *)
Lemma stored_configuration_is_restored_witness :
  construct (mkSettings (Some false) (Some false) None
               (Some (stored (construct (mkSettings None None None None)))))
  = construct (mkSettings None None None None).
Proof.
  apply (stored_configuration_is_restored
           (mkSettings (Some false) (Some false) None None)
           (construct (mkSettings None None None None)));
    discriminate.
Defined.

End Config.

(* ===================================================================== *)
(** ** Export confirmation ([handleExport], lines 311-338) *)
(* ===================================================================== *)

Module Orchestrator.

(** What [handleExport] does to the outside, in order. *)
Inductive Event :=
| SaveSettings
| GetOutputPath (title : string)
| GetOutputFile (title : string) (isTimestamp : bool)
| ExportToPDF (path : string) (webview : option nat) (doc : option string)
| Close.

(** The fields of the modal and of the settings the handler reads: the
    multiple-output flag, the surfaces, the base name of each entry of
    [this.docs], the default title and the timestamp setting. *)
Record Modal := mkModal {
  multiple : bool;
  webviews : list nat;
  docs : list string;
  title : string;
  isTimestamp : bool
}.

Record Run := mkRun {
  trace : list Event;
  closed : bool;
  thrown : bool
}.

(** A path the prompt returned is used only if it is truthy. *)
Definition truthy (answer : option string) : option string :=
  match answer with
  | Some EmptyString => None
  | Some p => Some p
  | None => None
  end.

(** The requests of [this.webviews.map(async (wb, i) => ...)]; reading
    [this.docs[i].file] of a missing entry throws in that callback, the
    other callbacks still issue their requests. *)
Fixpoint export_each (outputPath : string) (i : nat) (wbs : list nat)
         (ds : list string) : list Event * bool :=
  match wbs with
  | [] => ([], false)
  | wb :: rest =>
      match nth_error ds i with
      | Some base =>
          let '(evs, err) := export_each outputPath (S i) rest ds in
          (ExportToPDF (outputPath ++ "/" ++ base ++ ".pdf") (Some wb)
                       (Some base) :: evs,
           err)
      | None =>
          let '(evs, _) := export_each outputPath (S i) rest ds in (evs, true)
      end
  end.

(** [handleExport], given what the path prompt answers. In single-output
    mode the first surface and the first document are passed on as they
    are, [undefined] included. *)
Definition handleExport (m : Modal) (answer : option string) : Run :=
  if multiple m then
    match truthy answer with
    | Some outputPath =>
        let '(evs, err) := export_each outputPath 0 (webviews m) (docs m) in
        if err
        then mkRun ([SaveSettings; GetOutputPath (title m)] ++ evs) false true
        else mkRun ([SaveSettings; GetOutputPath (title m)] ++ evs ++ [Close])
                   true false
    | None => mkRun [SaveSettings; GetOutputPath (title m)] false false
    end
  else
    match truthy answer with
    | Some outputFile =>
        mkRun [SaveSettings; GetOutputFile (title m) (isTimestamp m);
               ExportToPDF outputFile (nth_error (webviews m) 0)
                           (nth_error (docs m) 0);
               Close] true false
    | None =>
        mkRun [SaveSettings; GetOutputFile (title m) (isTimestamp m)]
              false false
    end.

Definition is_export (e : Event) : bool :=
  match e with ExportToPDF _ _ _ => true | _ => false end.

(** C8. If the prompt yields no path, the handler has persisted the
    configuration, asked for the path and done nothing else: no
    PDF-generation request, no close, no exception. *)
Theorem declined_path_abandons_export m answer :
  truthy answer = None ->
  trace (handleExport m answer)
  = [SaveSettings;
     if multiple m then GetOutputPath (title m)
     else GetOutputFile (title m) (isTimestamp m)]
  /\ filter is_export (trace (handleExport m answer)) = []
  /\ ~ In Close (trace (handleExport m answer))
  /\ closed (handleExport m answer) = false
  /\ thrown (handleExport m answer) = false.
Proof.
  intros H. unfold handleExport. rewrite H.
  destruct (multiple m); simpl; repeat split; auto;
    intros [E|[E|[]]]; discriminate E.
Qed.

(** The theorem at a dismissed file dialog in single-output mode. *)
Lemma declined_path_abandons_export_witness :
  closed (handleExport (mkModal false [0] ["note"] "note" false) None) = false.
Proof.
  exact (proj1 (proj2 (proj2 (proj2
    (declined_path_abandons_export
       (mkModal false [0] ["note"] "note" false) None eq_refl))))).
Defined.

(** *** Multiple-output export *)

Lemma export_each_past path ds wbs i :
  List.length ds <= i -> fst (export_each path i wbs ds) = [].
Proof.
  revert i. induction wbs as [|wb rest IH]; intros i H; [reflexivity|].
  cbn [export_each].
  assert (E : nth_error ds i = None) by now apply nth_error_None.
  rewrite E. specialize (IH (S i)).
  destruct (export_each path (S i) rest ds) as [evs err]. cbn [fst] in *.
  apply IH. lia.
Qed.

Lemma export_each_spec path ds wbs i :
  i <= List.length ds ->
  List.length (filter is_export (fst (export_each path i wbs ds)))
  = Nat.min (List.length wbs) (List.length ds - i)
  /\ Forall (fun e => is_export e = true) (fst (export_each path i wbs ds))
  /\ snd (export_each path i wbs ds)
     = negb (i + List.length wbs <=? List.length ds)%nat.
Proof.
  revert i. induction wbs as [|wb rest IH]; intros i Hi.
  - simpl. rewrite Nat.add_0_r. split; [reflexivity|]. split; [constructor|].
    apply Nat.leb_le in Hi. now rewrite Hi.
  - cbn [export_each]. destruct (nth_error ds i) as [base|] eqn:E.
    + assert (Hlt : i < List.length ds) by (apply nth_error_Some; congruence).
      destruct (IH (S i) Hlt) as [H1 [H2 H3]].
      destruct (export_each path (S i) rest ds) as [evs err].
      cbn [fst snd filter is_export List.length] in *.
      split; [rewrite H1; lia|]. split; [now constructor|].
      rewrite H3. f_equal. f_equal. lia.
    + apply nth_error_None in E.
      pose proof (export_each_past path ds rest (S i)) as Hp.
      destruct (export_each path (S i) rest ds) as [evs err].
      cbn [fst snd] in *. rewrite Hp by lia. cbn [filter List.length].
      split; [lia|]. split; [constructor|].
      symmetry. apply negb_true_iff. apply Nat.leb_gt. lia.
Qed.

(** X12. In multiple-output mode, with a path chosen, the handler issues
    one PDF request for each surface that has a document at its index. If
    every surface has one it then closes the modal; if there are more
    surfaces than documents it throws instead and the modal stays open. *)
Theorem multiple_export_pairs_surfaces_with_documents m path :
  multiple m = true -> truthy (Some path) = Some path ->
  List.length (filter is_export (trace (handleExport m (Some path))))
  = Nat.min (List.length (webviews m)) (List.length (docs m))
  /\ (List.length (webviews m) <= List.length (docs m) ->
      closed (handleExport m (Some path)) = true
      /\ thrown (handleExport m (Some path)) = false)
  /\ (List.length (docs m) < List.length (webviews m) ->
      closed (handleExport m (Some path)) = false
      /\ thrown (handleExport m (Some path)) = true
      /\ ~ In Close (trace (handleExport m (Some path)))).
Proof.
  intros Hm Hp. unfold handleExport. rewrite Hm, Hp.
  destruct (export_each_spec path (docs m) (webviews m) 0 (Nat.le_0_l _))
    as [H1 [H2 H3]].
  destruct (export_each path 0 (webviews m) (docs m)) as [evs err].
  cbn [fst snd] in *. rewrite Nat.sub_0_r in H1. cbn [Nat.add] in H3.
  split; [|split].
  - destruct err; cbn [trace]; cbn [app filter is_export];
      [exact H1|]. rewrite filter_app. cbn [filter is_export].
    now rewrite app_nil_r.
  - intros Hle. apply Nat.leb_le in Hle. rewrite Hle in H3. subst err.
    split; reflexivity.
  - intros Hlt. apply Nat.leb_gt in Hlt. rewrite Hlt in H3. subst err.
    cbn [closed thrown trace]. split; [reflexivity|]. split; [reflexivity|].
    cbn [app]. intros [E|[E|Hin]]; try discriminate E.
    rewrite Forall_forall in H2. specialize (H2 _ Hin). discriminate H2.
Qed.

(** The theorem at two surfaces left over from two passes and one
    document. *)
Lemma multiple_export_pairs_surfaces_with_documents_witness :
  closed (handleExport (mkModal true [0; 1] ["note"] "note" false)
            (Some "/out")) = false
  /\ thrown (handleExport (mkModal true [0; 1] ["note"] "note" false)
               (Some "/out")) = true.
Proof.
  destruct (multiple_export_pairs_surfaces_with_documents
              (mkModal true [0; 1] ["note"] "note" false) "/out"
              eq_refl eq_refl) as [_ [_ H]].
  destruct H as [H1 [H2 _]]; [simpl; lia|]. split; assumption.
Defined.

End Orchestrator.

(* ===================================================================== *)
(** ** Preview scale ([calcPageSize], lines 168-183) *)
(* ===================================================================== *)

Module Scale.

(** The arithmetic [calcPageSize] uses, over the numbers of the host. The
    code runs on IEEE-754 doubles; its properties below need only the order
    laws of [NumberLaws], which correctly rounded double arithmetic and exact
    rational arithmetic both satisfy. A comparison with a NaN is false, so the
    hypotheses of the laws exclude it; [finite] excludes the infinities. *)
Class Number (num : Type) := {
  zero : num;
  one : num;
  hundred : num;
  le : num -> num -> Prop;
  lt : num -> num -> Prop;
  finite : num -> Prop;
  div : num -> num -> num;
  mul : num -> num -> num;
  floor : num -> num
}.

Class NumberLaws (num : Type) `{Number num} : Prop := {
  div_le_r : forall p c1 c2,
      le zero p -> lt zero c1 -> le c1 c2 -> finite c2 ->
      le (div p c2) (div p c1);
  mul_hundred_le : forall x y, le x y -> le (mul x hundred) (mul y hundred);
  floor_le : forall x y, le x y -> le (floor x) (floor y);
  div_hundred_le : forall x y, le x y -> le (div x hundred) (div y hundred)
}.

(** Exact rational arithmetic, a model of the laws. *)
#[export] Instance Q_number : Number Q := {|
  zero := 0%Q;
  one := 1%Q;
  hundred := 100%Q;
  le := Qle;
  lt := Qlt;
  finite := fun _ => True;
  div := Qdiv;
  mul := Qmult;
  floor := fun q => inject_Z (Qfloor q)
|}.

Section CalcPageSize.
Context {num : Type} `{Number num}.

(** [PageSize[name]?.[0]]: the width in millimetres of a named preset
    (the table of constant.ts), [None] for a name the table lacks. *)
Variable PageSize : string -> option num.
(** [parseFloat]. *)
Variable parseFloat : string -> num.
(** [mm2px] of utils.ts. *)
Variable mm2px : num -> num.

(** The values [calcPageSize] writes into the style of a surface:
    [transform: scale(t, t)], [width: calc(w * 100%)] and
    [height: calc(h * 100%)]. *)
Record Surface := mkSurface {
  transform : num;
  width : num;
  height : num
}.

(** The state [calcPageSize] reads and writes: the configured page size
    and custom width, the pixel width of the preview container, the
    current preview surface if any, and all surfaces. *)
Record View := mkView {
  pageSize : string;
  pageWidth : option string;
  offsetWidth : num;
  preview : option Surface;
  webviews : list Surface
}.

(** Line 171. *)
Definition page_width (v : View) : num :=
  match PageSize (pageSize v) with
  | Some w => w
  | None =>
      parseFloat (match pageWidth v with Some s => s | None => "210" end)
  end.

(** [Math.floor((pageWidthPx / containerWidthPx) * 100) / 100]. *)
Definition scale_of (pageWidthPx containerWidthPx : num) : num :=
  div (floor (mul (div pageWidthPx containerWidthPx) hundred)) hundred.

(** Line 172. *)
Definition scale (v : View) : num :=
  scale_of (mm2px (page_width v)) (offsetWidth v).

Definition scaled (s : num) : Surface :=
  {| transform := div one s; width := s; height := s |}.

(** [calcPageSize()]. *)
Definition calcPageSize (v : View) : View :=
  {| pageSize := pageSize v;
     pageWidth := pageWidth v;
     offsetWidth := offsetWidth v;
     preview := option_map (fun _ => scaled (scale v)) (preview v);
     webviews := map (fun _ => scaled (scale v)) (webviews v) |}.

(** The view with the preview container resized to [w] pixels. *)
Definition resized (v : View) (w : num) : View :=
  {| pageSize := pageSize v;
     pageWidth := pageWidth v;
     offsetWidth := w;
     preview := preview v;
     webviews := webviews v |}.

Context {laws : NumberLaws num}.

Lemma scale_of_antitone p c1 c2 :
  le zero p -> lt zero c1 -> le c1 c2 -> finite c2 ->
  le (scale_of p c2) (scale_of p c1).
Proof.
  intros Hp Hc Hle Hfin. unfold scale_of.
  apply div_hundred_le, floor_le, mul_hundred_le.
  now apply div_le_r.
Qed.

(** C5. For a configuration whose page width in pixels is not negative:
    computing the page size again with nothing changed yields the same
    scale and leaves the view as the first computation left it; and with
    the page width fixed, a wider preview container, of positive finite
    width, never yields a larger scale. *)
Theorem scale_stable_and_antitone v c1 c2 :
  le zero (mm2px (page_width v)) -> lt zero c1 -> le c1 c2 -> finite c2 ->
  scale (calcPageSize v) = scale v
  /\ calcPageSize (calcPageSize v) = calcPageSize v
  /\ le (scale (resized v c2)) (scale (resized v c1)).
Proof.
  intros Hp Hc Hle Hfin. split; [reflexivity|]. split.
  - unfold calcPageSize. simpl. f_equal.
    + now destruct (preview v).
    + rewrite map_map. reflexivity.
  - unfold scale, page_width. simpl. now apply scale_of_antitone.
Qed.
End CalcPageSize.

Lemma Q_div_le_r (p c1 c2 : Q) :
  (0 <= p -> 0 < c1 -> c1 <= c2 -> p / c2 <= p / c1)%Q.
Proof.
  intros Hp Hc Hle.
  assert (Hc2 : (0 < c2)%Q) by (eapply Qlt_le_trans; eauto).
  apply Qle_shift_div_l; [exact Hc|].
  unfold Qdiv. rewrite <- Qmult_assoc, (Qmult_comm (/ c2)).
  rewrite <- (Qmult_1_r p) at 2. rewrite Qmult_comm, (Qmult_comm p 1).
  apply Qmult_le_compat_r; [|exact Hp].
  apply Qle_shift_div_r; [exact Hc2|]. now rewrite Qmult_1_l.
Qed.

#[export] Instance Q_laws : NumberLaws Q.
Proof.
  constructor; simpl.
  - intros p c1 c2 Hp Hc Hle _. now apply Q_div_le_r.
  - intros x y Hle. now apply Qmult_le_compat_r.
  - intros x y Hle. rewrite <- Zle_Qle. now apply Qfloor_resp_le.
  - intros x y Hle. unfold Qdiv. now apply Qmult_le_compat_r.
Qed.

(** The theorem on rationals: an A4 page, 96 pixels per inch, and a
    container growing from 400 to 800 pixels. *)
Lemma scale_stable_and_antitone_witness :
  let table := fun s => if String.eqb s "A4" then Some 210%Q else None in
  let px := fun mm => (mm * (96 / (254 # 10)))%Q in
  let v := mkView "A4" None 400%Q None [] in
  (scale table (fun _ => 210%Q) px (resized v 800%Q)
   <= scale table (fun _ => 210%Q) px (resized v 400%Q))%Q.
Proof.
  intros table px v.
  refine (proj2 (proj2 (scale_stable_and_antitone table (fun _ => 210%Q) px
                          v 400%Q 800%Q _ _ _ I)));
    simpl; unfold Qle, Qlt; simpl; lia.
Defined.

End Scale.

(* ===================================================================== *)
(** ** Transclusion transport ([encodeEmbeds], render.ts 295-298, and
       [makeWebviewJs], lines 208-231) *)
(* ===================================================================== *)

Module Embeds.
Import Dom.

(** The selector [span.markdown-embed]. *)
Definition is_embed (n : node) : bool :=
  has_tag "span" n && has_class "markdown-embed" n.

Section Handles.
Variable rec : node -> list path.

(** The handles found below the children [l], the first of which has
    index [i]. *)
Fixpoint all_from (i : nat) (l : list node) : list path :=
  match l with
  | [] => []
  | k :: r => map (cons i) (rec k) ++ all_from (S i) r
  end.
End Handles.

(** [querySelectorAll]: the handles of all matching nodes in document
    order. *)
Fixpoint querySelectorAll (sel : node -> bool) (n : node) : list path :=
  (if sel n then [[]] else [])
  ++ match n with
     | Element _ _ _ kids => all_from (querySelectorAll sel) 0 kids
     | Text _ => []
     end.

(** The embed spans strictly below a node, in document order. *)
Fixpoint embeds_in (n : node) : list node :=
  match n with
  | Element _ _ _ kids =>
      flat_map (fun k => (if is_embed k then [k] else []) ++ embeds_in k) kids
  | Text _ => []
  end.

(** The nesting depth of embed spans. *)
Fixpoint depth (n : node) : nat :=
  match n with
  | Element _ _ _ kids =>
      (if is_embed n then 1 else 0)
      + fold_right (fun k m => Nat.max (depth k) m) 0 kids
  | Text _ => 0
  end.

(** What the parser makes of a string without markup: nothing for the
    empty string, one text node otherwise. *)
Definition text_of (s : string) : list node :=
  match s with
  | EmptyString => []
  | _ => [Text s]
  end.

(** *** A model of the host functions

    Percent-encoding of bytes for the URI codec, and serialisation and
    parsing of the fragment of HTML made of text and of elements that carry
    at most a class attribute. *)

Definition unreserved (c : ascii) : bool :=
  let n := nat_of_ascii c in
  ((48 <=? n)%nat && (n <=? 57)%nat) || ((65 <=? n)%nat && (n <=? 90)%nat)
  || ((97 <=? n)%nat && (n <=? 122)%nat)
  || existsb (Ascii.eqb c) ["-"; "_"; "."; "!"; "~"; "*"; "'"; "("; ")"]%char.

Definition hex_digit (n : nat) : ascii :=
  match String.get n "0123456789ABCDEF" with
  | Some c => c
  | None => "0"%char
  end.

Definition encode_char (c : ascii) : string :=
  if unreserved c then String c EmptyString
  else String "%" (String (hex_digit (nat_of_ascii c / 16))
                     (String (hex_digit (nat_of_ascii c mod 16)) EmptyString)).

(** [encodeURIComponent] on the bytes of a string. *)
Fixpoint percent_encode (s : string) : string :=
  match s with
  | EmptyString => EmptyString
  | String c r => encode_char c ++ percent_encode r
  end.

Definition hex_value (c : ascii) : option nat :=
  let n := nat_of_ascii c in
  if (48 <=? n)%nat && (n <=? 57)%nat then Some (n - 48)
  else if (65 <=? n)%nat && (n <=? 70)%nat then Some (n - 55)
  else if (97 <=? n)%nat && (n <=? 102)%nat then Some (n - 87)
  else None.

(** [decodeURIComponent] on the bytes of a string; a percent sign that is
    not followed by two hexadecimal digits is a [URIError]. *)
Fixpoint percent_decode (s : string) : option string :=
  match s with
  | EmptyString => Some EmptyString
  | String "%" (String h (String l r)) =>
      match hex_value h with
      | Some a =>
          match hex_value l with
          | Some b =>
              match percent_decode r with
              | Some r' => Some (String (ascii_of_nat (16 * a + b)) r')
              | None => None
              end
          | None => None
          end
      | None => None
      end
  | String "%" _ => None
  | String c r =>
      match percent_decode r with
      | Some r' => Some (String c r')
      | None => None
      end
  end.

Definition escape_char (c : ascii) : string :=
  if Ascii.eqb c "&" then "&amp;"
  else if Ascii.eqb c "<" then "&lt;"
  else if Ascii.eqb c ">" then "&gt;"
  else String c EmptyString.

Fixpoint escape_text (s : string) : string :=
  match s with
  | EmptyString => EmptyString
  | String c r => escape_char c ++ escape_text r
  end.

Fixpoint unescape_text (s : string) : string :=
  match s with
  | EmptyString => EmptyString
  | String "&" (String "a" (String "m" (String "p" (String ";" r)))) =>
      String "&" (unescape_text r)
  | String "&" (String "l" (String "t" (String ";" r))) =>
      String "<" (unescape_text r)
  | String "&" (String "g" (String "t" (String ";" r))) =>
      String ">" (unescape_text r)
  | String c r => String c (unescape_text r)
  end.

Definition class_attribute (cls : list string) : string :=
  match cls with
  | [] => EmptyString
  | _ => " class=" ++ Anchors.dq ++ JS.join " " cls ++ Anchors.dq
  end.

Fixpoint serialize_node (n : node) : string :=
  match n with
  | Text d => escape_text d
  | Element t cls _ kids =>
      "<" ++ t ++ class_attribute cls ++ ">"
      ++ String.concat "" (map serialize_node kids)
      ++ "</" ++ t ++ ">"
  end.

(** The [innerHTML] getter. *)
Definition serialize (kids : list node) : string :=
  String.concat "" (map serialize_node kids).

(** The longest prefix free of the characters [stop] accepts, and the
    rest. *)
Fixpoint take_until (stop : ascii -> bool) (s : string) : string * string :=
  match s with
  | EmptyString => (EmptyString, EmptyString)
  | String c r =>
      if stop c then (EmptyString, s)
      else let '(a, b) := take_until stop r in (String c a, b)
  end.

(** Nodes up to the end of the input or to the next end tag. *)
Fixpoint parse_nodes (fuel : nat) (s : string) : option (list node * string) :=
  match fuel with
  | O => None
  | S f =>
      match s with
      | EmptyString => Some ([], EmptyString)
      | String "<" (String "/" _) => Some ([], s)
      | String "<" r =>
          let '(tag, r1) :=
            take_until (fun c => Ascii.eqb c " " || Ascii.eqb c ">") r in
          let '(cls, r2) :=
            match JS.strip_prefix (" class=" ++ Anchors.dq) r1 with
            | Some r' =>
                let '(v, r'') := take_until (Ascii.eqb "034") r' in
                (JS.split_on " " v,
                 match r'' with String _ x => x | EmptyString => EmptyString end)
            | None => ([], r1)
            end in
          match r2 with
          | String ">" r3 =>
              match parse_nodes f r3 with
              | Some (kids, r4) =>
                  match JS.strip_prefix ("</" ++ tag ++ ">") r4 with
                  | Some r5 =>
                      match parse_nodes f r5 with
                      | Some (rest, r6) =>
                          Some (Element tag cls [] kids :: rest, r6)
                      | None => None
                      end
                  | None => None
                  end
              | None => None
              end
          | _ => None
          end
      | _ =>
          let '(txt, r) := take_until (Ascii.eqb "<") s in
          match parse_nodes f r with
          | Some (rest, r') => Some (Text (unescape_text txt) :: rest, r')
          | None => None
          end
      end
  end.

Fixpoint no_markup (s : string) : bool :=
  match s with
  | EmptyString => true
  | String c r => negb (Ascii.eqb c "<") && negb (Ascii.eqb c "&") && no_markup r
  end.

(** The [innerHTML] setter of the model: text without markup is one text
    node; anything the parser does not accept yields no nodes. *)
Definition parse (s : string) : list node :=
  if no_markup s then text_of s
  else match parse_nodes (S (String.length s)) s with
       | Some (l, EmptyString) => l
       | _ => []
       end.

(** The characters [percent_encode] produces. *)
Fixpoint safe (s : string) : bool :=
  match s with
  | EmptyString => true
  | String c r => (unreserved c || Ascii.eqb c "%") && safe r
  end.

(** *** The script text

    [makeWebviewJs] builds its script by writing texts between the backticks
    of template literals: the encoded body and head (lines 210 and 211), the
    class and the style of the host body (lines 225 and 226) and the title of
    the document (line 229). *)

(** A text that, written between backticks, is one literal that denotes the
    text itself: it holds no backtick, no backslash, no carriage return and
    no dollar sign in front of an opening brace. *)
Fixpoint literal_safe (s : string) : bool :=
  match s with
  | EmptyString => true
  | String c r =>
      negb (Ascii.eqb c "`") && negb (Ascii.eqb c "\")
      && negb (Ascii.eqb c "013")
      && negb (Ascii.eqb c "$"
               && match r with String "{" _ => true | _ => false end)
      && literal_safe r
  end.

Definition plain (c : ascii) : bool :=
  let n := nat_of_ascii c in
  ((48 <=? n)%nat && (n <=? 57)%nat) || ((65 <=? n)%nat && (n <=? 90)%nat)
  || ((97 <=? n)%nat && (n <=? 122)%nat) || Ascii.eqb c " ".

Fixpoint plain_text (s : string) : bool :=
  match s with
  | EmptyString => true
  | String c r => plain c && plain_text r
  end.

(** Letters, digits and spaces around a single backtick. Written as the last
    literal of a script, such a text ends the literal at its backtick, and
    the backtick that was to close the literal opens one that never ends. *)
Fixpoint lone_backtick (s : string) : bool :=
  match s with
  | EmptyString => false
  | String c r =>
      if Ascii.eqb c "`" then plain_text r else plain c && lone_backtick r
  end.

(** A value of [getAttribute] inside a template: [null] reads as the text
    "null". *)
Definition interpolate (o : option string) : string :=
  match o with
  | Some v => v
  | None => "null"
  end.

(** What [executeJavaScript] makes of the script. *)
Inductive Outcome :=
| Ran (kids : list node)
    (** the script ran to its end; the children of the body of the surface *)
| Rejected
    (** the script text is no program (a [SyntaxError]): no statement runs and
        the surface keeps the page it had *)
| Threw
    (** a statement threw *)
| Unmodelled.
    (** an interpolated text leaves its literal in a way not followed here *)

Section Transport.
(** The host functions: the URI component codec ([None] is a [URIError])
    and the [innerHTML] getter and setter on the children of an element. *)
Variable encodeURIComponent : string -> string.
Variable decodeURIComponent : string -> option string.
Variable innerHTML : list node -> string.
Variable parseHTML : string -> list node.

(** [span.innerHTML = encodeURIComponent(span.innerHTML)]. *)
Definition encode_span (span : node) : node :=
  set_childNodes
    (parseHTML (encodeURIComponent (innerHTML (childNodes span)))) span.

(** [encodeEmbeds(doc)]: the spans in reverse document order. *)
Definition encodeEmbeds (doc : node) : node :=
  fold_left (fun d p => update_at p encode_span d)
            (rev (querySelectorAll is_embed doc)) doc.

Section ForEach.
(** The callback on one element: the element afterwards, or [None] when the
    callback throws. *)
Variable callback : node -> option node.

(** [root.querySelectorAll("span.markdown-embed").forEach(callback)] on the
    tree [n], [n] included. The list is fixed before the first call. An
    embed span with no embed span above it is rewritten in place. The embed
    spans below it are in the list too; the callback has replaced the
    children of their ancestor by then, so it runs on them detached, in the
    state they had, and only a throw is observable. *)
Fixpoint visit (n : node) : option node :=
  match n with
  | Text d => Some (Text d)
  | Element t c a kids =>
      if is_embed n then
        match callback n with
        | Some n' =>
            if forallb (fun m => match callback m with
                                 | Some _ => true
                                 | None => false
                                 end) (embeds_in n)
            then Some n' else None
        | None => None
        end
      else option_map (Element t c a) (traverse _ visit kids)
  end.
End ForEach.

(** [decodeAndReplaceEmbed(element)], with the recursion bounded by
    [fuel]. *)
Fixpoint decodeAndReplaceEmbed (fuel : nat) (element : node) : option node :=
  match fuel with
  | O => None
  | S f =>
      match decodeURIComponent (innerHTML (childNodes element)) with
      | Some html =>
          option_map (fun kids => set_childNodes kids element)
            (traverse _ (visit (decodeAndReplaceEmbed f)) (parseHTML html))
      | None => None
      end
  end.

(** The script of [makeWebviewJs(doc)], run on a surface. [body] and
    [title] are the children of the body and the title of [doc]; [head],
    [bodyClass] and [bodyStyle] are read from the host document. Line 210
    moves the body over, line 211 the head, line 223 decodes the embed spans
    (the head holds none), lines 225 to 229 set attributes of the body and
    the title, which the children of the body do not show. The script is the
    program these lines spell only if every interpolated text is
    [literal_safe]; a title that is a [lone_backtick] makes the text a
    [SyntaxError]. *)
Definition makeWebviewJs (fuel : nat) (body : list node) (head : string)
    (bodyClass bodyStyle : option string) (title : string) : Outcome :=
  if literal_safe (encodeURIComponent (innerHTML body))
     && literal_safe (encodeURIComponent head)
     && literal_safe (interpolate bodyClass)
     && literal_safe (interpolate bodyStyle)
  then
    if literal_safe title then
      match decodeURIComponent (encodeURIComponent (innerHTML body)) with
      | Some html =>
          match decodeURIComponent (encodeURIComponent head) with
          | Some _ =>
              match traverse _ (visit (decodeAndReplaceEmbed fuel))
                      (parseHTML html) with
              | Some kids => Ran kids
              | None => Threw
              end
          | None => Threw
          end
      | None => Threw
      end
    else if lone_backtick title then Rejected
    else Unmodelled
  else Unmodelled.

(** Encoding from the leaves up: what [encodeEmbeds] amounts to, every span
    being encoded after the spans inside it. *)
Fixpoint encoded (n : node) : node :=
  match n with
  | Element t c a kids =>
      if is_embed n then encode_span (Element t c a (map encoded kids))
      else Element t c a (map encoded kids)
  | Text d => Text d
  end.

(** Markup that comes back unchanged from the [innerHTML] setter and
    getter. *)
Definition survives (kids : list node) : Prop :=
  parseHTML (innerHTML kids) = kids.

(** Well-formed embed markup: the content of every embed span, as it
    travels with the embeds inside it encoded, survives. *)
Fixpoint well_formed (n : node) : Prop :=
  match n with
  | Element t c a kids =>
      (is_embed n = true -> survives (map encoded kids))
      /\ (fix all (l : list node) : Prop :=
            match l with
            | [] => True
            | k :: r => well_formed k /\ all r
            end) kids
  | Text _ => True
  end.

(** *** [encodeEmbeds] encodes from the leaves up *)

Lemma update_nth_middle {A} (f : A -> A) pre x suf :
  update_nth (List.length pre) f (pre ++ x :: suf) = pre ++ f x :: suf.
Proof. induction pre as [|y pre IH]; simpl; [reflexivity | now rewrite IH]. Qed.

Lemma fold_child step_at ps t c a kids i :
  fold_left (fun d p => update_at p step_at d) (map (cons i) ps)
            (Element t c a kids)
  = Element t c a
      (update_nth i
         (fun k => fold_left (fun d p => update_at p step_at d) ps k) kids).
Proof.
  revert kids. induction ps as [|p ps IH]; intros kids; simpl.
  - f_equal. revert kids. induction i as [|i IHi]; intros [|k r]; simpl; auto.
    now rewrite <- IHi.
  - rewrite IH, update_nth_twice. reflexivity.
Qed.

Lemma fold_children t c a suf :
  Forall (fun k => encodeEmbeds k = encoded k) suf ->
  forall pre,
    fold_left (fun d p => update_at p encode_span d)
      (rev (all_from (querySelectorAll is_embed) (List.length pre) suf))
      (Element t c a (pre ++ suf))
    = Element t c a (pre ++ map encoded suf).
Proof.
  induction 1 as [|k r Hk _ IH]; intros pre; [reflexivity|].
  cbn [all_from]. rewrite rev_app_distr, fold_left_app.
  replace (pre ++ k :: r) with ((pre ++ [k]) ++ r)
    by (now rewrite <- app_assoc).
  replace (S (List.length pre)) with (List.length (pre ++ [k]))
    by (rewrite length_app; simpl; lia).
  rewrite IH, <- map_rev, fold_child, <- app_assoc. cbn [app map].
  rewrite update_nth_middle. unfold encodeEmbeds in Hk. now rewrite Hk.
Qed.

Lemma encodeEmbeds_encoded n : encodeEmbeds n = encoded n.
Proof.
  induction n as [d|t c a kids IH] using node_nested_ind; [reflexivity|].
  unfold encodeEmbeds. cbn [querySelectorAll encoded].
  rewrite rev_app_distr, fold_left_app.
  pose proof (fold_children t c a kids IH []) as Hc.
  cbn [List.length app] in Hc. rewrite Hc.
  now destruct (is_embed (Element t c a kids)).
Qed.

(** *** Decoding what was encoded *)

Hypothesis decode_encode :
  forall s, decodeURIComponent (encodeURIComponent s) = Some s.
Hypothesis parse_encoded :
  forall s, parseHTML (encodeURIComponent s) = text_of (encodeURIComponent s).
Hypothesis innerHTML_encoded :
  forall s,
    innerHTML (text_of (encodeURIComponent s)) = encodeURIComponent s.
Hypothesis encode_literal :
  forall s, literal_safe (encodeURIComponent s) = true.

Lemma lone_backtick_unsafe s : lone_backtick s = true -> literal_safe s = false.
Proof.
  induction s as [|c r IH]; [discriminate|]. cbn [lone_backtick literal_safe].
  destruct (Ascii.eqb c "`"); [reflexivity|].
  intros H. apply andb_true_iff in H. destruct H as [_ H].
  rewrite (IH H). apply andb_false_r.
Qed.

Lemma well_formed_Element t c a kids :
  well_formed (Element t c a kids)
  <-> (is_embed (Element t c a kids) = true -> survives (map encoded kids))
      /\ Forall well_formed kids.
Proof.
  cbn [well_formed]. apply and_iff_compat_l.
  induction kids as [|k r IH]; split; intros H.
  - constructor.
  - exact I.
  - destruct H as [Hk Hr]. constructor; [exact Hk | now apply IH].
  - inversion H; subst. split; [assumption | now apply IH].
Qed.

Lemma traverse_encoded callback kids :
  Forall (fun k => visit callback (encoded k) = Some k) kids ->
  traverse _ (visit callback) (map encoded kids) = Some kids.
Proof.
  induction 1 as [|k r Hk _ IH]; [reflexivity|].
  cbn [map traverse]. now rewrite Hk, IH.
Qed.

Lemma embeds_in_text_of t c a s : embeds_in (Element t c a (text_of s)) = [].
Proof. now destruct s. Qed.

Lemma depth_child k kids :
  In k kids -> depth k <= fold_right (fun k m => Nat.max (depth k) m) 0 kids.
Proof.
  induction kids as [|x r IH]; [intros []|].
  intros [->|Hin]; cbn [fold_right]; [lia|]. specialize (IH Hin). lia.
Qed.

(** The [forEach] of line 223 restores an encoded tree, given fuel for its
    nesting depth. *)
Lemma visit_encoded n :
  well_formed n ->
  forall fuel, depth n <= fuel ->
  visit (decodeAndReplaceEmbed fuel) (encoded n) = Some n.
Proof.
  induction n as [d|t c a kids IH] using node_nested_ind; [reflexivity|].
  intros Hwf fuel Hfuel.
  apply well_formed_Element in Hwf. destruct Hwf as [Hsurv Hkids].
  assert (Hsub : forall f,
             fold_right (fun k m => Nat.max (depth k) m) 0 kids <= f ->
             traverse _ (visit (decodeAndReplaceEmbed f)) (map encoded kids)
             = Some kids).
  { intros f Hf. apply traverse_encoded.
    rewrite Forall_forall in *. intros k Hk.
    apply (IH k Hk (Hkids k Hk)).
    pose proof (depth_child k kids Hk). lia. }
  cbn [encoded]. cbn [depth] in Hfuel.
  destruct (is_embed (Element t c a kids)) eqn:Em.
  - unfold encode_span. cbn [childNodes set_childNodes].
    rewrite parse_encoded. cbn [visit].
    change (is_embed (Element t c a (text_of _))) with
      (is_embed (Element t c a kids)).
    rewrite Em, embeds_in_text_of. cbn [forallb].
    destruct fuel as [|f]; [lia|].
    cbn [decodeAndReplaceEmbed childNodes].
    rewrite innerHTML_encoded, decode_encode, (Hsurv eq_refl).
    rewrite Hsub by lia. reflexivity.
  - cbn [visit].
    change (is_embed (Element t c a (map encoded kids))) with
      (is_embed (Element t c a kids)).
    rewrite Em, Hsub by lia. reflexivity.
Qed.

(** C6, what the code does. For a body whose embed markup is well
    formed, at any nesting depth, and a host body whose class and style
    are safe between backticks: when the title is safe too, encoding the
    embed spans with [encodeEmbeds] and then running the script of the
    surface, with fuel for the nesting depth, yields the children the body
    had before encoding. When the title is a few plain words with one
    backtick, the script is rejected as a whole: nothing is moved over and
    nothing is decoded. *)
Theorem embed_round_trip cls attrs kids fuel head bodyClass bodyStyle title :
  well_formed (Element "body" cls attrs kids) ->
  survives (map encoded kids) ->
  depth (Element "body" cls attrs kids) <= fuel ->
  literal_safe (interpolate bodyClass) = true ->
  literal_safe (interpolate bodyStyle) = true ->
  (literal_safe title = true ->
   makeWebviewJs fuel
     (childNodes (encodeEmbeds (Element "body" cls attrs kids)))
     head bodyClass bodyStyle title
   = Ran kids)
  /\ (lone_backtick title = true ->
      makeWebviewJs fuel
        (childNodes (encodeEmbeds (Element "body" cls attrs kids)))
        head bodyClass bodyStyle title
      = Rejected).
Proof.
  intros Hwf Hsurv Hfuel Hc Hs. unfold makeWebviewJs.
  rewrite !encode_literal, Hc, Hs. cbn [andb]. split.
  - intros Ht. rewrite Ht.
    rewrite encodeEmbeds_encoded. cbn [encoded].
    change (is_embed (Element "body" cls attrs kids)) with false.
    cbn [childNodes]. rewrite !decode_encode, Hsurv.
    apply well_formed_Element in Hwf. destruct Hwf as [_ Hkids].
    rewrite traverse_encoded; [reflexivity|].
    rewrite Forall_forall in *. intros k Hk.
    apply visit_encoded; [now apply Hkids|].
    pose proof (depth_child k kids Hk). cbn [depth] in Hfuel.
    change (is_embed (Element "body" cls attrs kids)) with false in Hfuel.
    cbv iota in Hfuel. lia.
  - intros Ht. now rewrite (lone_backtick_unsafe _ Ht), Ht.
Qed.

(** *** What encoding leaves in place *)

Lemma depth_text_of s :
  fold_right (fun k m => Nat.max (depth k) m) 0 (text_of s) = 0.
Proof. now destruct s. Qed.

Lemma depth_encoded n : depth (encoded n) <= 1.
Proof.
  induction n as [d|t c a kids IH] using node_nested_ind; [simpl; lia|].
  cbn [encoded]. destruct (is_embed (Element t c a kids)) eqn:Em.
  - unfold encode_span. cbn [childNodes set_childNodes].
    rewrite parse_encoded. cbn [depth].
    change (is_embed (Element t c a (text_of _))) with
      (is_embed (Element t c a kids)).
    rewrite Em, depth_text_of. lia.
  - cbn [depth].
    change (is_embed (Element t c a (map encoded kids))) with
      (is_embed (Element t c a kids)).
    rewrite Em. cbn [Nat.add]. clear Em.
    induction IH as [|k r Hk _ IHr]; cbn [map fold_right]; [lia|].
    cbv beta in Hk. lia.
Qed.

Lemma encoded_spans n p s :
  get_at p (encoded n) = Some s -> is_embed s = true ->
  exists html, childNodes s = text_of (encodeURIComponent html).
Proof.
  revert p s.
  induction n as [d|t c a kids IH] using node_nested_ind; intros p s H He.
  - destruct p as [|i q]; cbn in H; [|now destruct i].
    injection H as <-. discriminate He.
  - cbn [encoded] in H. destruct (is_embed (Element t c a kids)) eqn:Em.
    + unfold encode_span in H. cbn [childNodes set_childNodes] in H.
      rewrite parse_encoded in H. destruct p as [|i q]; cbn [get_at] in H.
      * injection H as <-. eexists. reflexivity.
      * exfalso. cbn [childNodes] in H.
        destruct (encodeURIComponent (innerHTML (map encoded kids)))
          as [|x e]; cbn [text_of] in H; [now destruct i|].
        destruct i as [|i]; cbn [nth_error] in H; [|now destruct i].
        destruct q as [|j q]; cbn in H; [|now destruct j].
        injection H as <-. discriminate He.
    + destruct p as [|i q]; cbn [get_at] in H.
      * injection H as <-.
        change (is_embed (Element t c a (map encoded kids)))
          with (is_embed (Element t c a kids)) in He. congruence.
      * cbn [childNodes] in H. rewrite nth_error_map in H.
        destruct (nth_error kids i) as [k|] eqn:E; cbn in H; [|discriminate].
        apply nth_error_In in E. rewrite Forall_forall in IH.
        exact (IH k E q s H He).
Qed.

(** X14. After [encodeEmbeds] no embed span contains another one: every
    embed span of the result holds what the parser makes of an encoded text,
    that is nothing or a single text node, so nested transclusions travel
    inside the text of the outermost one. *)
Theorem encodeEmbeds_flattens doc :
  depth (encodeEmbeds doc) <= 1
  /\ forall p s,
       get_at p (encodeEmbeds doc) = Some s -> is_embed s = true ->
       exists html, childNodes s = text_of (encodeURIComponent html).
Proof.
  rewrite encodeEmbeds_encoded. split; [apply depth_encoded|].
  intros p s. apply encoded_spans.
Qed.

Lemma encoded_without_embeds n : depth n = 0 -> encoded n = n.
Proof.
  induction n as [d|t c a kids IH] using node_nested_ind; [reflexivity|].
  cbn [depth encoded]. intros H.
  destruct (is_embed (Element t c a kids)); [discriminate H|].
  cbn [Nat.add] in H. f_equal.
  induction IH as [|k r Hk _ IHr]; [reflexivity|].
  cbn [map fold_right] in *. cbv beta in Hk.
  rewrite Hk by lia. rewrite IHr by lia. reflexivity.
Qed.

(** X15. A document without embed spans is left exactly as it is by
    [encodeEmbeds], whatever the codec and the HTML parser do. *)
Theorem encodeEmbeds_without_embeds doc :
  depth doc = 0 -> encodeEmbeds doc = doc.
Proof. intros H. rewrite encodeEmbeds_encoded. now apply encoded_without_embeds. Qed.

End Transport.

(** *** The model satisfies the laws *)

Ltac each_char c := destruct c as [[] [] [] [] [] [] [] []].

Lemma percent_decode_char c r :
  percent_decode (encode_char c ++ r)
  = match percent_decode r with
    | Some r' => Some (String c r')
    | None => None
    end.
Proof. each_char c; reflexivity. Qed.

Lemma percent_decode_encode s : percent_decode (percent_encode s) = Some s.
Proof.
  induction s as [|c r IH]; [reflexivity|].
  cbn [percent_encode]. now rewrite percent_decode_char, IH.
Qed.

Lemma safe_char c r : safe (encode_char c ++ r) = safe r.
Proof. each_char c; reflexivity. Qed.

Lemma safe_percent_encode s : safe (percent_encode s) = true.
Proof.
  induction s as [|c r IH]; [reflexivity|].
  cbn [percent_encode]. now rewrite safe_char.
Qed.

Lemma safe_no_markup s : safe s = true -> no_markup s = true.
Proof.
  induction s as [|c r IH]; [reflexivity|]. cbn [safe no_markup].
  intros H. apply andb_true_iff in H. destruct H as [Hc Hr].
  rewrite (IH Hr), andb_true_r. clear -Hc.
  each_char c; try reflexivity; discriminate Hc.
Qed.

Lemma safe_escape_text s : safe s = true -> escape_text s = s.
Proof.
  induction s as [|c r IH]; [reflexivity|]. cbn [safe escape_text].
  intros H. apply andb_true_iff in H. destruct H as [Hc Hr].
  rewrite (IH Hr). clear -Hc.
  each_char c; try reflexivity; discriminate Hc.
Qed.

Lemma parse_percent_encode s :
  parse (percent_encode s) = text_of (percent_encode s).
Proof.
  unfold parse. now rewrite (safe_no_markup _ (safe_percent_encode s)).
Qed.

Lemma serialize_percent_encode s :
  serialize (text_of (percent_encode s)) = percent_encode s.
Proof.
  pose proof (safe_escape_text _ (safe_percent_encode s)) as H.
  destruct (percent_encode s) as [|c r]; [reflexivity|].
  unfold serialize. cbn [text_of map String.concat serialize_node].
  exact H.
Qed.

Lemma safe_literal_safe s : safe s = true -> literal_safe s = true.
Proof.
  induction s as [|c r IH]; [reflexivity|]. cbn [safe literal_safe].
  intros H. apply andb_true_iff in H. destruct H as [Hc Hr].
  rewrite (IH Hr), andb_true_r. clear -Hc.
  each_char c; try reflexivity; discriminate Hc.
Qed.

Lemma literal_safe_percent_encode s : literal_safe (percent_encode s) = true.
Proof. apply safe_literal_safe, safe_percent_encode. Qed.

(** The theorem on the model of the host functions: a body with a paragraph
    and an embed span that holds text and a second embed span, under the
    title [Note] and under the title of a note named with a backtick. *)
Lemma embed_round_trip_witness :
  makeWebviewJs percent_encode percent_decode serialize parse 2
    (childNodes
       (encodeEmbeds percent_encode serialize parse
          (Element "body" [] []
             [Element "p" [] [] [Text "Intro"];
              Element "span" ["markdown-embed"] []
                [Text "outer ";
                 Element "span" ["markdown-embed"] []
                   [Element "b" [] [] [Text "a<b & c"]]]])))
    "<title>x</title>" (Some "theme-dark mod-linux") None "Note"
  = Ran [Element "p" [] [] [Text "Intro"];
         Element "span" ["markdown-embed"] []
           [Text "outer ";
            Element "span" ["markdown-embed"] []
              [Element "b" [] [] [Text "a<b & c"]]]]
  /\ makeWebviewJs percent_encode percent_decode serialize parse 2
       (childNodes
          (encodeEmbeds percent_encode serialize parse
             (Element "body" [] []
                [Element "p" [] [] [Text "Intro"];
                 Element "span" ["markdown-embed"] []
                   [Text "outer ";
                    Element "span" ["markdown-embed"] []
                      [Element "b" [] [] [Text "a<b & c"]]]])))
       "<title>x</title>" (Some "theme-dark mod-linux") None "a`b"
     = Rejected.
Proof.
  split.
  - apply (embed_round_trip percent_encode percent_decode serialize parse
             percent_decode_encode parse_percent_encode
             serialize_percent_encode literal_safe_percent_encode).
    + cbn -[survives]. unfold survives. repeat split; intros; reflexivity.
    + reflexivity.
    + cbn. lia.
    + reflexivity.
    + reflexivity.
    + reflexivity.
  - apply (embed_round_trip percent_encode percent_decode serialize parse
             percent_decode_encode parse_percent_encode
             serialize_percent_encode literal_safe_percent_encode).
    + cbn -[survives]. unfold survives. repeat split; intros; reflexivity.
    + reflexivity.
    + cbn. lia.
    + reflexivity.
    + reflexivity.
    + reflexivity.
Defined.

(** The flattening theorem on the model of the host functions. *)
Lemma encodeEmbeds_flattens_witness :
  depth
    (encodeEmbeds percent_encode serialize parse
       (Element "body" [] []
          [Element "span" ["markdown-embed"] []
             [Text "outer ";
              Element "span" ["markdown-embed"] []
                [Element "b" [] [] [Text "inner"]]]]))
  <= 1
  /\ forall p s,
       get_at p
         (encodeEmbeds percent_encode serialize parse
            (Element "body" [] []
               [Element "span" ["markdown-embed"] []
                  [Text "outer ";
                   Element "span" ["markdown-embed"] []
                     [Element "b" [] [] [Text "inner"]]]]))
       = Some s ->
       is_embed s = true ->
       exists html, childNodes s = text_of (percent_encode html).
Proof.
  exact (encodeEmbeds_flattens percent_encode serialize parse
           parse_percent_encode
           (Element "body" [] []
              [Element "span" ["markdown-embed"] []
                 [Text "outer ";
                  Element "span" ["markdown-embed"] []
                    [Element "b" [] [] [Text "inner"]]]])).
Defined.

(** The theorem at a body with one paragraph. *)
Lemma encodeEmbeds_without_embeds_witness :
  encodeEmbeds percent_encode serialize parse
    (Element "body" [] [] [Element "p" [] [] [Text "plain"]])
  = Element "body" [] [] [Element "p" [] [] [Text "plain"]].
Proof.
  exact (encodeEmbeds_without_embeds percent_encode serialize parse
           (Element "body" [] [] [Element "p" [] [] [Text "plain"]])
           eq_refl).
Defined.

End Embeds.

(* ===================================================================== *)
(** ** Canvas snapshots ([fixCanvasToImage], render.ts 313-323) *)
(* ===================================================================== *)

Module Canvas.
Import Dom.

(** The selector [canvas]. *)
Definition is_canvas (n : node) : bool := has_tag "canvas" n.

(** The canvases strictly below a node, in document order. *)
Fixpoint canvases_in (n : node) : list node :=
  match n with
  | Element _ _ _ kids =>
      flat_map (fun k => (if is_canvas k then [k] else []) ++ canvases_in k)
               kids
  | Text _ => []
  end.

Section Snapshot.
(** [canvas.toDataURL()]; [None] when it throws (a tainted canvas). *)
Variable toDataURL : node -> option string.
(** [copyAttributes(img, canvas.attributes)] of utils.ts: the attributes of
    the image, which holds [src] already, after the copy. *)
Variable copyAttributes :
  list (string * string) -> list (string * string) -> list (string * string).

Definition attributes (n : node) : list (string * string) :=
  match n with Element _ _ a _ => a | Text _ => [] end.

(** The body of the loop for one canvas: the image that takes its place. *)
Definition snapshot (canvas : node) : option node :=
  match toDataURL canvas with
  | Some data =>
      Some (Element "img" ["__canvas__"]
              (copyAttributes [("src", data)] (attributes canvas)) [])
  | None => None
  end.

(** The loop over [el.querySelectorAll("canvas")] on the tree [n], [n]
    included. A canvas with no canvas above it is replaced by its image.
    The canvases inside it are in the list too and are snapshot as well,
    but they left the document with their ancestor, so only a throw of
    theirs is observable. *)
Fixpoint replace_canvases (n : node) : option node :=
  match n with
  | Text d => Some (Text d)
  | Element t c a kids =>
      if is_canvas n then
        match snapshot n with
        | Some img =>
            if forallb (fun m => match snapshot m with
                                 | Some _ => true
                                 | None => false
                                 end) (canvases_in n)
            then Some img else None
        | None => None
        end
      else option_map (Element t c a) (traverse _ replace_canvases kids)
  end.

(** [fixCanvasToImage(el)]: the canvases below [el]. *)
Definition fixCanvasToImage (el : node) : option node :=
  option_map (fun kids => set_childNodes kids el)
             (traverse _ replace_canvases (childNodes el)).

Lemma canvases_in_nil_iff kids :
  flat_map (fun k => (if is_canvas k then [k] else []) ++ canvases_in k) kids
  = []
  <-> Forall (fun k => is_canvas k = false /\ canvases_in k = []) kids.
Proof.
  induction kids as [|k r IH]; simpl; [split; [constructor | reflexivity]|].
  split.
  - intros H. apply app_eq_nil in H. destruct H as [H1 H2].
    apply app_eq_nil in H1. destruct H1 as [H1 H3].
    constructor; [|now apply IH].
    split; [now destruct (is_canvas k) | exact H3].
  - intros H. inversion H as [|? ? [H1 H2] Hr]; subst.
    rewrite H1, H2. simpl. now apply IH.
Qed.

Lemma traverse_Forall {A B} (f : A -> option B) (P : B -> Prop) l l' :
  Forall (fun x => forall y, f x = Some y -> P y) l ->
  traverse B f l = Some l' -> Forall P l'.
Proof.
  intros H. revert l'. induction H as [|x l Hx _ IH]; intros l'; simpl.
  - intros [= <-]. constructor.
  - destruct (f x) as [y|] eqn:E; [|discriminate].
    destruct (traverse B f l) as [r|]; [|discriminate].
    intros [= <-]. constructor; [now apply Hx | now apply IH].
Qed.

Lemma replace_canvases_clean n n' :
  replace_canvases n = Some n' ->
  is_canvas n' = false /\ canvases_in n' = [].
Proof.
  revert n'. induction n as [d|t c a kids IH] using node_nested_ind;
    intros n'; cbn [replace_canvases].
  - intros [= <-]. split; reflexivity.
  - destruct (is_canvas (Element t c a kids)) eqn:Ec.
    + unfold snapshot. destruct (toDataURL (Element t c a kids)); [|discriminate].
      destruct (forallb _ _); [|discriminate].
      intros [= <-]. split; reflexivity.
    + destruct (traverse node replace_canvases kids) as [kids'|] eqn:E;
        [|discriminate].
      intros [= <-]. split; [exact Ec|]. cbn [canvases_in].
      apply canvases_in_nil_iff.
      apply (traverse_Forall replace_canvases _ kids kids'); [|exact E].
      rewrite Forall_forall in *. intros k Hk y Hy. now apply (IH k Hk).
Qed.

(** X16. When [fixCanvasToImage] returns, no canvas is left below the
    element: every canvas that had no canvas above it has been replaced by
    an image of class [__canvas__] without children. *)
Theorem fixCanvasToImage_leaves_no_canvas el el' :
  fixCanvasToImage el = Some el' -> canvases_in el' = [].
Proof.
  unfold fixCanvasToImage.
  destruct (traverse node replace_canvases (childNodes el)) as [kids'|] eqn:E;
    [|discriminate].
  intros [= <-].
  destruct el as [t c a kids|d]; cbn [set_childNodes canvases_in];
    [|reflexivity].
  cbn [childNodes] in E. apply canvases_in_nil_iff.
  apply (traverse_Forall replace_canvases _ kids kids'); [|exact E].
  apply Forall_forall. intros k _ y Hy.
  exact (replace_canvases_clean k y Hy).
Qed.

Lemma replace_canvases_without n :
  is_canvas n = false -> canvases_in n = [] -> replace_canvases n = Some n.
Proof.
  induction n as [d|t c a kids IH] using node_nested_ind; [reflexivity|].
  intros Hc Hin. cbn [replace_canvases]. rewrite Hc.
  cbn [canvases_in] in Hin. apply canvases_in_nil_iff in Hin.
  assert (E : traverse node replace_canvases kids = Some kids).
  { clear Hc. induction IH as [|k r Hk _ IHr]; [reflexivity|].
    inversion Hin as [|? ? [H1 H2] Hr]; subst. cbn [traverse].
    now rewrite (Hk H1 H2), (IHr Hr). }
  now rewrite E.
Qed.

(** X17. An element without canvases below it is returned unchanged, and
    the call cannot throw. *)
Theorem fixCanvasToImage_without_canvas el :
  canvases_in el = [] -> fixCanvasToImage el = Some el.
Proof.
  intros H. unfold fixCanvasToImage.
  destruct el as [t c a kids|d]; [|reflexivity].
  cbn [canvases_in childNodes] in *. apply canvases_in_nil_iff in H.
  assert (E : traverse node replace_canvases kids = Some kids).
  { induction H as [|k r [H1 H2] _ IHr]; [reflexivity|]. cbn [traverse].
    now rewrite (replace_canvases_without k H1 H2), IHr. }
  now rewrite E.
Qed.

(** X18. A canvas whose snapshot throws makes the whole call throw, also
    when it sits inside another canvas and would not reach the output. *)
Theorem fixCanvasToImage_throws el canvas :
  In canvas (canvases_in el) -> toDataURL canvas = None ->
  fixCanvasToImage el = None.
Proof.
  intros Hin Hthrow.
  assert (Hsnap : snapshot canvas = None) by (unfold snapshot; now rewrite Hthrow).
  assert (H : forall n, (n = canvas /\ is_canvas n = true)
                        \/ In canvas (canvases_in n) ->
                        replace_canvases n = None).
  { induction n as [d|t c a kids IH] using node_nested_ind.
    - intros [[<- Hc]|[]]. discriminate Hc.
    - intros Hn. cbn [replace_canvases].
      destruct (is_canvas (Element t c a kids)) eqn:Ec.
      + destruct Hn as [[-> _]|Hn]; [now rewrite Hsnap|].
        destruct (snapshot (Element t c a kids)); [|reflexivity].
        assert (Hf : forallb (fun m => match snapshot m with
                                       | Some _ => true
                                       | None => false
                                       end) (canvases_in (Element t c a kids))
                     = false).
        { apply not_true_is_false. intros Hall.
          rewrite forallb_forall in Hall. specialize (Hall _ Hn).
          now rewrite Hsnap in Hall. }
        now rewrite Hf.
      + destruct Hn as [[_ Hc]|Hn]; [congruence|].
        cbn [canvases_in] in Hn. apply in_flat_map in Hn.
        destruct Hn as [k [Hk Hn]].
        assert (E : traverse node replace_canvases kids = None).
        { clear Ec. induction kids as [|x r IHr]; [destruct Hk|].
          inversion IH as [|? ? Hx Hr]; subst. cbn [traverse].
          destruct Hk as [->|Hk].
          - rewrite Hx; [reflexivity|].
            apply in_app_or in Hn. destruct Hn as [Hn|Hn]; [|now right].
            left. destruct (is_canvas k) eqn:Ek; [|destruct Hn].
            destruct Hn as [->|[]]. auto.
          - destruct (replace_canvases x); [|reflexivity].
            now rewrite (IHr Hr Hk). }
        now rewrite E. }
  unfold fixCanvasToImage. destruct el as [t c a kids|d]; [|destruct Hin].
  cbn [canvases_in childNodes] in *. apply in_flat_map in Hin.
  destruct Hin as [k [Hk Hn]].
  assert (E : traverse node replace_canvases kids = None).
  { induction kids as [|x r IHr]; [destruct Hk|]. cbn [traverse].
    destruct Hk as [->|Hk].
    - rewrite H; [reflexivity|].
      apply in_app_or in Hn. destruct Hn as [Hn|Hn]; [|now right].
      left. destruct (is_canvas k) eqn:Ek; [|destruct Hn].
      destruct Hn as [->|[]]. auto.
    - destruct (replace_canvases x); [|reflexivity]. now rewrite (IHr Hk). }
  now rewrite E.
Qed.
End Snapshot.


(** A snapshot function that fails on canvases of class [tainted], and a
    copy that appends the attributes of the canvas. *)
Definition sample_toDataURL (n : node) : option string :=
  if has_class "tainted" n then None else Some "data:image/png;base64,AA".

Definition sample_copyAttributes (img canvas : list (string * string))
  : list (string * string) := img ++ canvas.

(** The theorem at a paragraph next to a canvas that holds a second
    canvas. *)
Lemma fixCanvasToImage_leaves_no_canvas_witness :
  canvases_in
    (Element "div" [] []
       [Element "p" [] [] [Text "chart"];
        Element "img" ["__canvas__"]
          [("src", "data:image/png;base64,AA"); ("width", "300")] []])
  = [].
Proof.
  exact (fixCanvasToImage_leaves_no_canvas sample_toDataURL
           sample_copyAttributes
           (Element "div" [] []
              [Element "p" [] [] [Text "chart"];
               Element "canvas" [] [("width", "300")]
                 [Element "canvas" [] [] []]])
           (Element "div" [] []
              [Element "p" [] [] [Text "chart"];
               Element "img" ["__canvas__"]
                 [("src", "data:image/png;base64,AA"); ("width", "300")] []])
           eq_refl).
Defined.

(** The theorem at a container with one paragraph. *)
Lemma fixCanvasToImage_without_canvas_witness :
  fixCanvasToImage sample_toDataURL sample_copyAttributes
    (Element "div" [] [] [Element "p" [] [] [Text "text"]])
  = Some (Element "div" [] [] [Element "p" [] [] [Text "text"]]).
Proof.
  exact (fixCanvasToImage_without_canvas sample_toDataURL
           sample_copyAttributes
           (Element "div" [] [] [Element "p" [] [] [Text "text"]]) eq_refl).
Defined.

(** The theorem at a tainted canvas inside a canvas. *)
Lemma fixCanvasToImage_throws_witness :
  fixCanvasToImage sample_toDataURL sample_copyAttributes
    (Element "div" [] []
       [Element "canvas" [] [] [Element "canvas" ["tainted"] [] []]])
  = None.
Proof.
  apply (fixCanvasToImage_throws sample_toDataURL sample_copyAttributes
           (Element "div" [] []
              [Element "canvas" [] [] [Element "canvas" ["tainted"] [] []]])
           (Element "canvas" ["tainted"] [] [])).
  - simpl. right. now left.
  - reflexivity.
Defined.

End Canvas.

(* ===================================================================== *)
(** ** Style collection ([getAllStyles], [getPatchStyle],
       [getPrintStyle], render.ts 5-110) *)
(* ===================================================================== *)

Module Styles.

(** A rule of a style sheet: its text, the name of its constructor and, for
    a media rule, its condition. *)
Record CSSRule := mkRule {
  cssText : string;
  constructorName : string;
  conditionText : string
}.

(** What reading [sheet.cssRules] gives: the rules, [null] or
    [undefined], or an exception (a cross-origin sheet). *)
Inductive Rules :=
| Readable (rules : list CSSRule)
| Nullish
| Throws.

(** A style sheet: the id and the href of its owner node, each possibly
    missing, and its rules. *)
Record StyleSheet := mkSheet {
  ownerId : option string;
  ownerHref : option string;
  cssRules : Rules
}.

(** A string used as a condition: missing and empty are false. *)
Definition truthy (o : option string) : option string :=
  match o with
  | Some EmptyString => None
  | Some s => Some s
  | None => None
  end.

(** [id?.startsWith("svelte-")]. *)
Definition is_svelte (sh : StyleSheet) : bool :=
  match ownerId sh with
  | Some i => JS.startsWith i "svelte-"
  | None => false
  end.

(** The comment line of line 19. *)
Definition division (sh : StyleSheet) : string :=
  "/* ----------"
  ++ match truthy (ownerId sh) with
     | Some i => "id:" ++ i
     | None =>
         match truthy (ownerHref sh) with
         | Some h => "href:" ++ h
         | None => EmptyString
         end
     end
  ++ "---------- */".

(** [sheet?.cssRules ?? []] inside the [try]: nothing is pushed for a sheet
    whose rules throw. *)
Definition rules_or_none (sh : StyleSheet) : list CSSRule :=
  match cssRules sh with
  | Readable rs => rs
  | Nullish => []
  | Throws => []
  end.

(** The test of lines 98-99. *)
Definition is_print (r : CSSRule) : bool :=
  String.eqb (constructorName r) "CSSMediaRule"
  && String.eqb (conditionText r) "print".

(** *** The pattern of line 100

    [/@media print\s*\{(.+)\}/gms]: the text [@media print], white space, an
    opening brace, one character or more of any kind (with the [s] flag the
    dot takes line breaks too, and it takes as many characters as it can)
    and a closing brace. *)

(** The class [\s], on characters below 256. *)
Definition is_space (c : ascii) : bool :=
  existsb (Ascii.eqb c) ["009"; "010"; "011"; "012"; "013"; " "; "160"]%char.

Fixpoint all_space (s : string) : bool :=
  match s with
  | EmptyString => true
  | String c r => is_space c && all_space r
  end.

Fixpoint skip_spaces (s : string) : string :=
  match s with
  | EmptyString => EmptyString
  | String c r => if is_space c then skip_spaces r else s
  end.

(** The text in front of the last closing brace, and the text behind it. *)
Fixpoint split_last_brace (s : string) : option (string * string) :=
  match s with
  | EmptyString => None
  | String c r =>
      match split_last_brace r with
      | Some (a, b) => Some (String c a, b)
      | None => if Ascii.eqb c "}" then Some (EmptyString, r) else None
      end
  end.

(** A match of the pattern that starts at the first character: its group
    and the text behind the match. The group runs up to the last closing
    brace of the text and is not empty. *)
Definition match_here (s : string) : option (string * string) :=
  match JS.strip_prefix "@media print" s with
  | Some r =>
      match skip_spaces r with
      | String "{" body =>
          match split_last_brace body with
          | Some (EmptyString, _) => None
          | Some (inner, rest) => Some (inner, rest)
          | None => None
          end
      | _ => None
      end
  | None => None
  end.

(** [text.replace(/@media print\s*\{(.+)\}/gms, "$1")]: the leftmost match
    is replaced by its group. The match ends at the last closing brace of
    the text, so the search finds no second one behind it. *)
Fixpoint unwrap (s : string) : string :=
  match s with
  | EmptyString => EmptyString
  | String c r =>
      match match_here s with
      | Some (inner, rest) => inner ++ rest
      | None => String c (unwrap r)
      end
  end.

Lemma strip_prefix_app p r : JS.strip_prefix p (p ++ r) = Some r.
Proof.
  induction p as [|a p IH]; [reflexivity|]. cbn. now rewrite Ascii.eqb_refl.
Qed.

Lemma skip_spaces_brace ws r :
  all_space ws = true -> skip_spaces (ws ++ String "{" r) = String "{" r.
Proof.
  induction ws as [|c ws IH]; [reflexivity|]. cbn [all_space append skip_spaces].
  intros H. apply andb_true_iff in H. destruct H as [Hc Hw].
  rewrite Hc. now apply IH.
Qed.

Lemma split_last_brace_app inner :
  split_last_brace (inner ++ "}") = Some (inner, EmptyString).
Proof.
  induction inner as [|c r IH]; [reflexivity|].
  cbn [append split_last_brace]. now rewrite IH.
Qed.

Lemma unwrap_match s inner rest :
  match_here s = Some (inner, rest) -> unwrap s = (inner ++ rest)%string.
Proof.
  destruct s as [|c r]; [discriminate|]. intros H.
  cbn [unwrap]. now rewrite H.
Qed.

(** A rule in the form the engine serialises it in loses its wrapper. *)
Lemma unwrap_wrapped ws inner :
  all_space ws = true -> inner <> EmptyString ->
  unwrap ("@media print" ++ ws ++ "{" ++ inner ++ "}") = inner.
Proof.
  intros Hw Hi.
  rewrite (unwrap_match _ inner EmptyString); [apply Anchors.append_nil_r|].
  unfold match_here. rewrite strip_prefix_app.
  change ("{" ++ inner ++ "}")%string with (String "{" (inner ++ "}")).
  rewrite (skip_spaces_brace _ _ Hw), split_last_brace_app.
  destruct inner; [contradiction | reflexivity].
Qed.

Section Collect.
(** The constant [CSS_PATCH]. *)
Variable CSS_PATCH : string.

(** What the callback of [getAllStyles] pushes for one sheet. *)
Definition collect_sheet (sh : StyleSheet) : list string :=
  if is_svelte sh then []
  else division sh :: map cssText (rules_or_none sh).

(** What the callback of [getPrintStyle] pushes for one sheet. *)
Definition print_sheet (sh : StyleSheet) : list string :=
  map (fun r => unwrap (cssText r)) (filter is_print (rules_or_none sh)).

Definition getPrintStyle (sheets : list StyleSheet) : list string :=
  flat_map print_sheet sheets.

Definition getPatchStyle (sheets : list StyleSheet) : list string :=
  CSS_PATCH :: getPrintStyle sheets.

Definition getAllStyles (sheets : list StyleSheet) : list string :=
  flat_map collect_sheet sheets ++ getPatchStyle sheets.

(** X19. Every print media rule of every readable sheet, framework sheets
    included, whose text has the form [@media print], white space and a
    block in braces, is appended once more after the patch as the content of
    that block, without the wrapper; so it comes later in the cascade than
    the patch and than every collected rule. *)
Theorem print_rule_follows_the_patch sheets sh r rs ws inner :
  In sh sheets -> cssRules sh = Readable rs -> In r rs ->
  is_print r = true ->
  cssText r = ("@media print" ++ ws ++ "{" ++ inner ++ "}")%string ->
  all_space ws = true -> inner <> EmptyString ->
  exists rest1 rest2,
    getAllStyles sheets
    = flat_map collect_sheet sheets ++ CSS_PATCH :: rest1 ++ inner :: rest2.
Proof.
  intros Hsh Hrs Hr Hp Htext Hw Hi.
  assert (Hin : In inner (getPrintStyle sheets)).
  { unfold getPrintStyle. apply in_flat_map. exists sh. split; [exact Hsh|].
    unfold print_sheet, rules_or_none. rewrite Hrs.
    apply in_map_iff. exists r. split.
    - rewrite Htext. now apply unwrap_wrapped.
    - apply filter_In. auto. }
  apply in_split in Hin. destruct Hin as [rest1 [rest2 E]].
  exists rest1, rest2. unfold getAllStyles, getPatchStyle. now rewrite E.
Qed.
End Collect.

(** The theorem at a framework sheet with one print rule. *)
Lemma print_rule_follows_the_patch_witness :
  exists rest1 rest2,
    getAllStyles "patch"
      [mkSheet (Some "svelte-1") None
         (Readable [mkRule "@media print { p { color: black; } }"
                      "CSSMediaRule" "print"])]
    = flat_map collect_sheet
        [mkSheet (Some "svelte-1") None
           (Readable [mkRule "@media print { p { color: black; } }"
                        "CSSMediaRule" "print"])]
      ++ "patch" :: rest1 ++ " p { color: black; } " :: rest2.
Proof.
  apply (print_rule_follows_the_patch "patch"
           [mkSheet (Some "svelte-1") None
              (Readable [mkRule "@media print { p { color: black; } }"
                           "CSSMediaRule" "print"])]
           (mkSheet (Some "svelte-1") None
              (Readable [mkRule "@media print { p { color: black; } }"
                           "CSSMediaRule" "print"]))
           (mkRule "@media print { p { color: black; } }" "CSSMediaRule" "print")
           [mkRule "@media print { p { color: black; } }" "CSSMediaRule" "print"]
           " " " p { color: black; } ").
  - now left.
  - reflexivity.
  - now left.
  - reflexivity.
  - reflexivity.
  - reflexivity.
  - discriminate.
Defined.

End Styles.

(* ===================================================================== *)
(** ** Table-of-contents expansion ([renderFiles], lines 110-129) *)
(* ===================================================================== *)

Module Toc.
Import Dom.

(** An entry of [cache.links]. *)
Record LinkCache := mkLink {
  link : string;
  displayText : string
}.

(** An entry of the array [files]: the [extra] argument of the
    [renderMarkdown] call that renders the linked note. Its [title] becomes
    the text of the title heading and its [id] the id of that heading. *)
Record TocItem := mkItem {
  title : string;
  file : string;
  id : string
}.

Definition attributes (n : node) : list (string * string) :=
  match n with Element _ _ a _ => a | Text _ => [] end.

(** A link the selector [a[data-href="..."]] can be built from by plain
    interpolation: it holds no quote, no backslash and no line break. File
    names cannot hold the first two. *)
Fixpoint selector_safe (s : string) : bool :=
  match s with
  | EmptyString => true
  | String c r =>
      negb (Ascii.eqb c "034") && negb (Ascii.eqb c "\")
      && negb (Ascii.eqb c "010") && selector_safe r
  end.

(** The selector [a[data-href="l"]]. *)
Definition links_to (l : string) (n : node) : bool :=
  has_tag "a" n
  && match Links.getAttribute "data-href" (attributes n) with
     | Some v => String.eqb v l
     | None => false
     end.

(** [setAttribute(name, v)]. *)
Fixpoint setAttribute (name v : string) (attrs : list (string * string))
  : list (string * string) :=
  match attrs with
  | [] => [(name, v)]
  | (k, x) :: r =>
      if String.eqb k name then (k, v) :: r
      else (k, x) :: setAttribute name v r
  end.

(** [elem.href = v]. *)
Definition set_href (v : string) (n : node) : node :=
  match n with
  | Element t c a k => Element t c (setAttribute "href" v a) k
  | Text d => Text d
  end.

Section Expansion.
(** [metadataCache.getFirstLinkpathDest(link, path)], [None] when the
    result is not a file. *)
Variable getFirstLinkpathDest : string -> option string.
(** The [n]-th id [crypto.randomUUID()] returns during the pass. *)
Variable randomUUID : nat -> string.

(** The part of the [map] callback that rewrites the document, for the
    [n]-th link. [None] stands for a link that is not [selector_safe], for
    which the selector is not the attribute test. *)
Definition visit_link (doc : node) (n : nat) (lk : LinkCache) : option node :=
  if selector_safe (link lk) then
    match querySelector (links_to (link lk)) doc with
    | Some p => Some (update_at p (set_href ("#" ++ randomUUID n)) doc)
    | None => Some doc
    end
  else None.

(** The document after the callback has run on all links, the first being
    the [n]-th. *)
Fixpoint rewrite_links (doc : node) (n : nat) (links : list LinkCache)
  : option node :=
  match links with
  | [] => Some doc
  | lk :: rest =>
      match visit_link doc n lk with
      | Some doc' => rewrite_links doc' (S n) rest
      | None => None
      end
  end.

(** The array [files]: the items whose link resolves to a file. *)
Fixpoint toc_items (n : nat) (links : list LinkCache) : list TocItem :=
  match links with
  | [] => []
  | lk :: rest =>
      match getFirstLinkpathDest (link lk) with
      | Some f =>
          mkItem (displayText lk) f (randomUUID n) :: toc_items (S n) rest
      | None => toc_items (S n) rest
      end
  end.

(** *** Handles under an attribute update *)

Lemma querySelector_unfold sel n :
  querySelector sel n
  = if sel n then Some []
    else match find_index _ (querySelector sel) 0 (childNodes n) with
         | Some (i, p) => Some (i :: p)
         | None => None
         end.
Proof. destruct n; reflexivity. Qed.

Lemma find_index_update_nth {A B} (f : A -> option B) (g : A -> A) i l s :
  (forall x, nth_error l i = Some x -> f (g x) = f x) ->
  find_index B f s (update_nth i g l) = find_index B f s l.
Proof.
  revert l s. induction i as [|i IH]; intros [|x t] s H; simpl; auto.
  - now rewrite (H x eq_refl).
  - destruct (f x); [reflexivity|]. apply IH. intros y Hy. now apply H.
Qed.

Lemma querySelector_attribute_update sel f :
  (forall m, sel (f m) = sel m) ->
  (forall m, childNodes (f m) = childNodes m) ->
  (forall m l, sel (set_childNodes l m) = sel m) ->
  forall p n, querySelector sel (update_at p f n) = querySelector sel n.
Proof.
  intros Hf Hc Hs. induction p as [|i p IH]; intros n; cbn [update_at].
  - now rewrite (querySelector_unfold sel (f n)), Hf, Hc,
      <- querySelector_unfold.
  - rewrite (querySelector_unfold sel (set_childNodes _ n)), Hs.
    rewrite (querySelector_unfold sel n).
    destruct (sel n); [reflexivity|].
    destruct n as [t c a kids|d]; [|reflexivity].
    cbn [childNodes set_childNodes].
    rewrite find_index_update_nth; [reflexivity|]. intros x _. apply IH.
Qed.

Lemma links_to_set_href l v m : links_to l (set_href v m) = links_to l m.
Proof.
  destruct m as [t c a k|d]; [|reflexivity]. unfold links_to. cbn.
  f_equal. induction a as [|[x y] r IH]; [reflexivity|]. cbn.
  destruct (String.eqb_spec x "href") as [->|_]; cbn; [reflexivity|].
  destruct (x =? "data-href")%string; [reflexivity | exact IH].
Qed.

Lemma links_to_set_childNodes l m ks :
  links_to l (set_childNodes ks m) = links_to l m.
Proof. now destruct m. Qed.

Lemma childNodes_set_href v m : childNodes (set_href v m) = childNodes m.
Proof. now destruct m. Qed.

Lemma visit_link_selects doc n lk doc' l :
  visit_link doc n lk = Some doc' ->
  querySelector (links_to l) doc' = querySelector (links_to l) doc.
Proof.
  unfold visit_link. destruct (selector_safe (link lk)); [|discriminate].
  destruct (querySelector (links_to (link lk)) doc) as [p|];
    intros [= <-]; [|reflexivity].
  apply querySelector_attribute_update.
  - intros m. apply links_to_set_href.
  - intros m. apply childNodes_set_href.
  - intros m ks. apply links_to_set_childNodes.
Qed.

Lemma nth_error_update_nth_other {A} i j (g : A -> A) l :
  i <> j -> nth_error (update_nth i g l) j = nth_error l j.
Proof.
  revert j l. induction i as [|i IH]; intros [|j] [|x t] H; simpl;
    try reflexivity; try congruence. apply IH. congruence.
Qed.

(** An update elsewhere leaves the attributes of a node as they are. *)
Lemma attributes_update_other v p p' n m :
  p <> p' -> get_at p n = Some m ->
  exists m',
    get_at p (update_at p' (set_href v) n) = Some m'
    /\ attributes m' = attributes m.
Proof.
  revert p' n. induction p as [|i q IH]; intros p' n Hne Hget.
  - destruct p' as [|i' q']; [congruence|]. cbn in *. injection Hget as <-.
    eexists. split; [reflexivity|]. now destruct n.
  - destruct p' as [|i' q'].
    + cbn [update_at]. exists m. split; [|reflexivity].
      cbn [get_at] in *. now rewrite childNodes_set_href.
    + cbn [get_at update_at] in *.
      destruct (nth_error (childNodes n) i) as [k|] eqn:E; [|discriminate].
      rewrite childNodes_set by (eapply nth_error_is_element; eauto).
      destruct (Nat.eq_dec i' i) as [->|Hi].
      * rewrite (nth_error_update_nth _ _ _ _ E).
        apply IH; [congruence | exact Hget].
      * rewrite nth_error_update_nth_other by exact Hi. rewrite E.
        exists m. auto.
Qed.

Lemma getAttribute_setAttribute name v attrs :
  Links.getAttribute name (setAttribute name v attrs) = Some v.
Proof.
  induction attrs as [|[k x] r IH]; cbn; [now rewrite String.eqb_refl|].
  destruct (String.eqb_spec k name) as [->|Hk]; cbn.
  - now rewrite String.eqb_refl.
  - apply String.eqb_neq in Hk. now rewrite Hk.
Qed.

Lemma links_to_unique l1 l2 m :
  links_to l1 m = true -> links_to l2 m = true -> l1 = l2.
Proof.
  unfold links_to. rewrite !andb_true_iff. intros [_ H1] [_ H2].
  destruct (Links.getAttribute "data-href" (attributes m)) as [v|];
    [|discriminate].
  apply String.eqb_eq in H1, H2. congruence.
Qed.

(** Links to other targets leave the anchor of a target as it is. *)
Lemma rewrite_links_other l links doc n doc' p el :
  (forall lk, In lk links -> link lk <> l) ->
  rewrite_links doc n links = Some doc' ->
  querySelector (links_to l) doc = Some p -> get_at p doc = Some el ->
  exists el',
    get_at p doc' = Some el' /\ attributes el' = attributes el.
Proof.
  revert doc n el. induction links as [|lk rest IH]; intros doc n el Hne Hrw Hq Hg.
  - cbn in Hrw. injection Hrw as <-. exists el. auto.
  - cbn [rewrite_links] in Hrw.
    destruct (visit_link doc n lk) as [doc1|] eqn:Ev; [|discriminate].
    assert (Hq1 : querySelector (links_to l) doc1 = Some p)
      by (rewrite (visit_link_selects _ _ _ _ l Ev); exact Hq).
    assert (H1 : exists el1, get_at p doc1 = Some el1
                             /\ attributes el1 = attributes el).
    { unfold visit_link in Ev.
      destruct (selector_safe (link lk)); [|discriminate].
      destruct (querySelector (links_to (link lk)) doc) as [p'|] eqn:Eq;
        injection Ev as <-; [|exists el; auto].
      apply attributes_update_other; [|exact Hg].
      intros ->. destruct (querySelector_get _ _ _ Hq) as [m [Hm Hl]].
      destruct (querySelector_get _ _ _ Eq) as [m' [Hm' Hl']].
      assert (m' = m) by congruence. subst m'.
      apply (Hne lk (or_introl eq_refl)).
      exact (links_to_unique _ _ _ Hl' Hl). }
    destruct H1 as [el1 [Hg1 Ha1]].
    destruct (IH doc1 (S n) el1) as [el' [Hg' Ha']]; auto.
    + intros lk' Hin. apply Hne. now right.
    + exists el'. split; [exact Hg' | congruence].
Qed.

(** X21. After the pass, the anchor of a link target carries the id drawn
    for the last link to that target: its [href] is [#] followed by that id,
    and if the link resolves to a file, that id is the heading id of the
    note rendered for it. With several links to one target the anchor
    ends on the id drawn for the last of them. *)
Theorem anchor_points_to_last_rendered_copy links doc n doc' j lk p :
  rewrite_links doc n links = Some doc' ->
  nth_error links j = Some lk ->
  (forall j' lk', j < j' -> nth_error links j' = Some lk' ->
                  link lk' <> link lk) ->
  querySelector (links_to (link lk)) doc = Some p ->
  (exists el,
      get_at p doc' = Some el /\
      Links.getAttribute "href" (attributes el)
      = Some ("#" ++ randomUUID (n + j))%string)
  /\ (forall f, getFirstLinkpathDest (link lk) = Some f ->
                In (mkItem (displayText lk) f (randomUUID (n + j)))
                   (toc_items n links)).
Proof.
  intros Hrw Hnth Hlast Hq. split.
  - revert doc n j Hrw Hnth Hlast Hq.
    induction links as [|lk0 rest IH]; intros doc n j Hrw Hnth Hlast Hq.
    + now destruct j.
    + cbn [rewrite_links] in Hrw.
      destruct (visit_link doc n lk0) as [doc1|] eqn:Ev; [|discriminate].
      destruct j as [|j]; cbn in Hnth.
      * injection Hnth as ->. rewrite Nat.add_0_r.
        assert (Hq1 : querySelector (links_to (link lk)) doc1 = Some p)
          by (rewrite (visit_link_selects _ _ _ _ _ Ev); exact Hq).
        destruct (querySelector_get _ _ _ Hq) as [m [Hm _]].
        unfold visit_link in Ev.
        destruct (selector_safe (link lk)); [|discriminate].
        rewrite Hq in Ev. injection Ev as <-.
        destruct (rewrite_links_other (link lk) rest
                    (update_at p (set_href ("#" ++ randomUUID n)) doc)
                    (S n) doc' p (set_href ("#" ++ randomUUID n) m))
          as [el' [Hg' Ha']]; auto.
        -- intros lk' Hin. apply In_nth_error in Hin.
           destruct Hin as [i Hi]. apply (Hlast (S i) lk'); [lia | exact Hi].
        -- now apply get_update_at.
        -- exists el'. split; [exact Hg'|]. rewrite Ha'.
           destruct m as [t c a k|d]; cbn.
           ++ apply getAttribute_setAttribute.
           ++ destruct (querySelector_get _ _ _ Hq) as [m' [Hm' Hl]].
              assert (m' = Text d) by congruence. subst m'. discriminate Hl.
      * replace (n + S j) with (S n + j) by lia.
        apply (IH doc1 (S n) j Hrw Hnth).
        -- intros j' lk' Hlt Hj'. apply (Hlast (S j') lk'); [lia | exact Hj'].
        -- rewrite (visit_link_selects _ _ _ _ _ Ev). exact Hq.
  - intros f Hf. clear Hrw Hlast Hq. revert n j Hnth.
    induction links as [|lk0 rest IH]; intros n j Hnth; [now destruct j|].
    cbn [toc_items]. destruct j as [|j]; cbn in Hnth.
    + injection Hnth as ->. rewrite Hf, Nat.add_0_r. now left.
    + replace (n + S j) with (S n + j) by lia. specialize (IH (S n) j Hnth).
      destruct (getFirstLinkpathDest (link lk0)); [now right | exact IH].
Qed.
End Expansion.

Definition sample_toc : node :=
  Element "div" [] []
    [Text "Contents";
     Element "a" ["internal-link"] [("data-href", "B"); ("href", "B")] []].

Definition sample_ids (n : nat) : string :=
  match n with 0 => "u0" | 1 => "u1" | _ => "u2" end.

Definition sample_links : list LinkCache :=
  [mkLink "B" "first"; mkLink "B" "second"].

Lemma anchor_points_to_last_rendered_copy_witness :
  (exists el,
      get_at [1] (update_at [1] (set_href "#u1")
                    (update_at [1] (set_href "#u0") sample_toc)) = Some el
      /\ Links.getAttribute "href" (attributes el) = Some "#u1"%string)
  /\ (forall f, Some "B.md"%string = Some f ->
                In (mkItem "second" f "u1")
                   (toc_items (fun _ => Some "B.md"%string) sample_ids 0
                      sample_links)).
Proof.
  apply (anchor_points_to_last_rendered_copy
           (fun _ => Some "B.md"%string) sample_ids sample_links sample_toc 0
           _ 1 (mkLink "B" "second") [1]).
  - reflexivity.
  - reflexivity.
  - intros [|[|[|j']]] lk' Hlt Hn; try lia; discriminate Hn.
  - reflexivity.
Defined.

End Toc.
